(** * mcache/bloom: a Bloom filter over pluggable bit storage

    Shallow embedding of the Go package [bloom] (bloom.go, the in-process
    backend [LocalBloom] and the go-redis backend [GoredisBloom]) together
    with the properties its specification states about it.

    Conventions.
    - Go's [uint] and [uint64] are 64-bit unsigned integers (amd64/arm64);
      they are modelled as [Z] in the range [0, 2^64) and every arithmetic
      operation that can leave the range is wrapped explicitly.
    - A method with a pointer receiver that mutates its receiver becomes a
      function returning the new receiver state next to its results.
    - The mutex of [LocalBloom] is held for the whole of every method, so a
      method is one atomic step; histories are sequences of such steps. *)

From Stdlib Require Import ZArith Lia Bool String Floats.
From stdpp Require Import base list strings gmap.

Local Open Scope Z_scope.

(** ** Unsigned 64-bit and 32-bit arithmetic *)

Module Uint.

Definition modulus64 : Z := 2 ^ 64.
Definition modulus32 : Z := 2 ^ 32.

(** Conversion to [uint64] / result of an overflowing operation. *)
Definition wrap64 (z : Z) : Z := z mod modulus64.

(** Go's conversion [uint32(x)] of an unsigned value: the low 32 bits. *)
Definition wrap32 (z : Z) : Z := z mod modulus32.

Definition add64 (x y : Z) : Z := wrap64 (x + y).
Definition mul64 (x y : Z) : Z := wrap64 (x * y).

Definition is_uint64 (z : Z) : Prop := 0 <= z < modulus64.

(** [max] of bloom.go. *)
Definition max (x y : Z) : Z := if y <? x then x else y.

End Uint.

Import Uint.

(** ** Hash quadruples and the location scheme (bloom.go) *)

(** [[4]uint64]: the four base hashes of a key. *)
Record HashQuad : Type := mkQuad { h0 : Z; h1 : Z; h2 : Z; h3 : Z }.

(** Array indexing [h[j]].  Go panics when [j] is outside [0..3]; the
    index expressions of [location] never are (see [location_indices]),
    and the model returns [0] there. *)
Definition hget (h : HashQuad) (j : Z) : Z :=
  match j with
  | 0 => h0 h
  | 1 => h1 h
  | 2 => h2 h
  | 3 => h3 h
  | _ => 0
  end.

(** [location]: [ii := uint64(i); return h[ii%2] + ii*h[2+(((ii+(ii%2))%4)/2)]],
    every [+] and [*] on [uint64] wrapping at [2^64]. *)
Definition location (h : HashQuad) (i : Z) : Z :=
  let ii := wrap64 i in
  add64 (hget h (ii mod 2))
        (mul64 ii (hget h (2 + (add64 ii (ii mod 2)) mod 4 / 2))).

(** The location formula as the specification words it: one expression
    over the index [i], read in unsigned 64-bit arithmetic. *)
Definition spec_location (h : HashQuad) (i : Z) : Z :=
  (hget h (i mod 2) + i * hget h (2 + ((i + i mod 2) mod 4) / 2)) mod 2 ^ 64.

(** ** The bit vector of the in-process backend

    [LocalBloom] stores its bits in a [bitset.BitSet] of the dependency
    github.com/bits-and-blooms/bitset (v1.2.1 in go.mod).  The model keeps
    its representation: a length in bits and a slice of 64-bit words, bit
    [i] being bit [i mod 64] of word [i / 64].  Memory allocation is
    assumed to succeed. *)

Module BitSet.

Definition wordSize : Z := 64.
Definition log2WordSize : Z := 6.

(** [Cap()]: the largest [uint]. *)
Definition Cap : Z := 2 ^ 64 - 1.

Record t : Type := mk { length : Z; set : list Z }.

Definition wordsNeeded (i : Z) : Z :=
  if Cap - wordSize + 1 <? i then Z.shiftr Cap log2WordSize
  else Z.shiftr (add64 i (wordSize - 1)) log2WordSize.

(** [New(length)]: [length] bits, all words zero. *)
Definition New (len : Z) : t :=
  mk len (replicate (Z.to_nat (wordsNeeded len)) 0).

Definition Len (b : t) : Z := length b.

Definition wordIndex (i : Z) : nat := Z.to_nat (Z.shiftr i log2WordSize).
Definition bitMask (i : Z) : Z := Z.shiftl 1 (Z.land i (wordSize - 1)).

(** [Test(i)]: [false] beyond the length, else
    [b.set[i>>6] & (1 << (i & 63)) != 0].  Indexing a word that is not
    allocated panics in Go; on well-formed vectors ([wf]) it cannot
    happen, and the model answers [false]. *)
Definition Test (b : t) (i : Z) : bool :=
  if length b <=? i then false
  else match set b !! wordIndex i with
       | Some w => negb (Z.land w (bitMask i) =? 0)
       | None => false
       end.

(** [extendSetMaybe(i)]: grows the vector when [i] is beyond the length
    (it panics for [i >= Cap()], which no caller in this package
    reaches: they only pass indices below the length). *)
Definition extendSetMaybe (b : t) (i : Z) : t :=
  if length b <=? i
  then mk (add64 i 1) (resize (Z.to_nat (wordsNeeded (add64 i 1))) 0 (set b))
  else b.

(** [Set(i)]: [b.set[i>>6] |= 1 << (i & 63)] after [extendSetMaybe]
    ([Set] is a reserved word here, hence the prime).  As in [Test], a
    word index out of range panics in Go and is excluded by [wf]; [alter]
    leaves the slice alone there. *)
Definition Set' (b : t) (i : Z) : t :=
  let b' := extendSetMaybe b i in
  mk (length b') (alter (fun w => Z.lor w (bitMask i)) (wordIndex i) (set b')).

(** [ClearAll()]: every word becomes zero, the length stays. *)
Definition ClearAll (b : t) : t :=
  mk (length b) (map (fun _ => 0) (set b)).

(** Well-formed vectors: at least one bit, and every bit below the
    length lives in an allocated word. *)
Definition wf (b : t) : Prop :=
  0 < length b /\ length b <= 64 * Z.of_nat (List.length (set b)).

Definition valid (b : t) (i : Z) : Prop := 0 <= i < length b.

(** The bit counts for which [New] allocates a word for every bit: all
    of [uint] except the topmost 63 values. *)
Definition maxLen : Z := Cap - wordSize + 1.

End BitSet.

(** ** Errors and the [BitMap] interface (bloom.go) *)

(** The error values this package produces or lets through: its own two
    sentinels, go-redis's [redis.Nil], and any other error a client
    reports (transport failures and the like). *)
Inductive error : Type :=
| ErrDataType
| ErrNoRedis
| RedisNil
| ClientError (msg : string).

Definition error_eqb (e1 e2 : error) : bool :=
  match e1, e2 with
  | ErrDataType, ErrDataType | ErrNoRedis, ErrNoRedis | RedisNil, RedisNil => true
  | ClientError a, ClientError b => String.eqb a b
  | _, _ => false
  end.

(** A Go [error] result: [None] is [nil]. *)
Definition err : Type := option error.

(** An interface value of type [BitMap]: the receiver's current state
    together with its method table.  A method returns its results and the
    receiver's state after the call. *)
Module BitMap.

Record t : Type := mk {
  S : Type;
  self : S;
  M : S -> Z;
  K : S -> Z;
  SetAll : HashQuad -> S -> err * S;
  TestAll : HashQuad -> S -> bool * err * S;
  TestAddAll : HashQuad -> S -> bool * err * S;
  ClearAll : S -> err * S
}.

(** The same object after one of its methods ran. *)
Definition update (bm : t) (s : S bm) : t :=
  mk (S bm) s (M bm) (K bm) (SetAll bm) (TestAll bm) (TestAddAll bm) (ClearAll bm).

End BitMap.

(** [type BloomFilter struct { b BitMap }] *)
Record BloomFilter : Type := mkBloomFilter { b : BitMap.t }.

Definition NewBloom (bm : BitMap.t) : BloomFilter := mkBloomFilter bm.

(** ** The in-process backend [LocalBloom] *)

Module LocalBloom.

(** [struct { mtx; k uint; b *bitset.BitSet }]; the mutex carries no
    data. *)
Record t : Type := mk { k : Z; b : BitSet.t }.

Definition K (l : t) : Z := k l.
Definition M (l : t) : Z := BitSet.Len (b l).

(** [loc := uint(location(h, i) % uint64(l.b.Len()))], the line shared
    by the three loops below. *)
Definition loc (l : t) (h : HashQuad) (i : Z) : Z :=
  wrap64 (location h i mod wrap64 (BitSet.Len (b l))).

(** [for i := uint(0); i < l.k; i++ { ... }] runs its body [l.k] times;
    the loops take the number of iterations left and the current [i]. *)
Fixpoint SetAll_loop (n : nat) (i : Z) (h : HashQuad) (l : t) : t :=
  match n with
  | O => l
  | Datatypes.S n' =>
      SetAll_loop n' (i + 1) h (mk (k l) (BitSet.Set' (b l) (loc l h i)))
  end.

Definition SetAll (h : HashQuad) (l : t) : err * t :=
  (None, SetAll_loop (Z.to_nat (k l)) 0 h l).

Fixpoint TestAll_loop (n : nat) (i : Z) (h : HashQuad) (l : t) : bool :=
  match n with
  | O => true
  | Datatypes.S n' =>
      if negb (BitSet.Test (b l) (loc l h i)) then false
      else TestAll_loop n' (i + 1) h l
  end.

Definition TestAll (h : HashQuad) (l : t) : bool * err * t :=
  (TestAll_loop (Z.to_nat (k l)) 0 h l, None, l).

Fixpoint TestAddAll_loop (n : nat) (i : Z) (h : HashQuad) (present : bool)
    (l : t) : bool * t :=
  match n with
  | O => (present, l)
  | Datatypes.S n' =>
      let present' :=
        if negb (BitSet.Test (b l) (loc l h i)) then false else present in
      TestAddAll_loop n' (i + 1) h present'
        (mk (k l) (BitSet.Set' (b l) (loc l h i)))
  end.

Definition TestAddAll (h : HashQuad) (l : t) : bool * err * t :=
  let '(present, l') := TestAddAll_loop (Z.to_nat (k l)) 0 h true l in
  (present, None, l').

Definition ClearAll (l : t) : err * t :=
  (None, mk (k l) (BitSet.ClearAll (b l))).

(** [LocalBloom] as a [BitMap]. *)
Definition bitmap (l : t) : BitMap.t :=
  BitMap.mk t l M K SetAll TestAll TestAddAll ClearAll.

(** The states a [LocalBloom] can be in: [k] is a [uint], the vector is
    well formed and its length is a [uint]. *)
Definition wf (l : t) : Prop :=
  is_uint64 (k l) /\ BitSet.wf (b l) /\ BitSet.length (b l) < modulus64.

(** The receiver after one iteration of a setting loop. *)
Definition set1 (l : t) (p : Z) : t := mk (k l) (BitSet.Set' (b l) p).

(** Whether one of the [n] iterations from [i] on visits position [j]. *)
Fixpoint visits (n : nat) (i : Z) (h : HashQuad) (l : t) (j : Z) : bool :=
  match n with
  | O => false
  | Datatypes.S n' => (loc l h i =? j) || visits n' (i + 1) h l j
  end.

(** [l'] has the parameters of [l] and at least its bits. *)
Definition le (l l' : t) : Prop :=
  k l' = k l /\ BitSet.length (b l') = BitSet.length (b l) /\
  forall j, BitSet.valid (b l) j ->
            BitSet.Test (b l) j = true -> BitSet.Test (b l') j = true.

(** The bit positions the loops visit, in order of [i]. *)
Definition positions (l : t) (h : HashQuad) : list Z :=
  map (fun i => loc l h (Z.of_nat i)) (seq 0 (Z.to_nat (k l))).

End LocalBloom.

(** [NewLocal(m, k)] *)
Definition NewLocal (m k : Z) : BloomFilter :=
  let lb := LocalBloom.mk (max 1 k) (BitSet.New (max 1 m)) in
  NewBloom (LocalBloom.bitmap lb).

(** ** The go-redis client as this package uses it

    [redis.UniversalClient] is an interface of the dependency
    github.com/go-redis/redis; the package calls [Script.Run(...).Result()]
    and [Del(key).Err()] on it.  A client is modelled as an object: some
    connection state (with whatever store lies behind it) and the two calls,
    each returning its Go results and the state afterwards.  Nothing is
    assumed about what a client answers. *)

Module Redis.

(** The three [redis.NewScript] values of goredis_bitmap.go. *)
Inductive Script : Type := luaSetAll | luaTestAll | luaSetAddAll.

(** The dynamic types a [Result()] value ([interface{}]) can have. *)
#[warnings="-register-all"]
Inductive reply : Type :=
| Nil
| Int64 (z : Z)
| Str (s : string)
| Slice (l : list reply).

Record UniversalClient : Type := mk {
  W : Type;
  conn : W;
  Run : Script -> list string -> list Z -> W -> reply * err * W;
  Del : string -> W -> err * W
}.

Definition update (c : UniversalClient) (w : W c) : UniversalClient :=
  mk (W c) w (Run c) (Del c).

End Redis.

(** ** The server-side scripts (goredis_bitmap.go, [setAllStr],
    [testAllStr], [setAddAllStr])

    Lua numbers are doubles.  On integers of absolute value at most [2^53]
    the operations the scripts use ([+], [*], [%] by a positive number and
    the division by 2 of an even number) are exact, and the model computes
    them on [Z]; [exact] names that range.  ARGV arrives as decimal strings,
    which Lua converts to these numbers. *)

Module Lua.

Definition exact (z : Z) : Prop := Z.abs z <= 2 ^ 53.

(** [ARGV[j]], 1-based; a missing argument is [nil], which the model
    reads as [0] (the callers always pass six). *)
Definition ARGV (argv : list Z) (j : nat) : Z := nth (j - 1) argv 0.

(** [local h = {h1,h2,h3,h4}] with [h1..h4 = ARGV[3..6]]; [h[j]]. *)
Definition h (argv : list Z) (j : Z) : Z :=
  match j with
  | 1 => ARGV argv 3
  | 2 => ARGV argv 4
  | 3 => ARGV argv 5
  | 4 => ARGV argv 6
  | _ => 0
  end.

(** [local loc = (h[(ii%2)+1]+ii*h[3+(((ii+(ii%2))%4)/2)])%m],
    with [m = ARGV[2]]; the same line in the three scripts. *)
Definition loc (argv : list Z) (ii : Z) : Z :=
  (h argv (ii mod 2 + 1) + ii * h argv (3 + ((ii + ii mod 2) mod 4) / 2))
    mod ARGV argv 2.

(** The Redis keyspace as far as the scripts see it: which bit offsets
    of which key are set.  A missing key has no bit set. *)
Definition db : Type := string -> Z -> bool.

Definition getbit (d : db) (key : string) (off : Z) : Z :=
  if d key off then 1 else 0.

(** [redis.call('setbit', key, off, 1)] *)
Definition setbit (d : db) (key : string) (off : Z) : db :=
  fun k o => if (String.eqb k key && (o =? off))%bool then true else d k o.

Definition del (d : db) (key : string) : db :=
  fun k o => if String.eqb k key then false else d k o.

(** [for i=1,k do local ii = i-1 ... end]: [k] iterations, [ii] from 0. *)
Fixpoint setAll_loop (n : nat) (ii : Z) (key : string) (argv : list Z)
    (d : db) : db :=
  match n with
  | O => d
  | S n' => setAll_loop n' (ii + 1) key argv (setbit d key (loc argv ii))
  end.

Fixpoint testAll_loop (n : nat) (ii : Z) (key : string) (argv : list Z)
    (d : db) : Z :=
  match n with
  | O => 1
  | S n' =>
      if getbit d key (loc argv ii) =? 0 then 0
      else testAll_loop n' (ii + 1) key argv d
  end.

Fixpoint setAddAll_loop (n : nat) (ii : Z) (key : string) (argv : list Z)
    (present : Z) (d : db) : Z * db :=
  match n with
  | O => (present, d)
  | S n' =>
      let present' :=
        if getbit d key (loc argv ii) =? 0 then 0 else present in
      setAddAll_loop n' (ii + 1) key argv present'
        (setbit d key (loc argv ii))
  end.

(** Running a script with [KEYS[1] = key]: the reply and the keyspace
    afterwards.  [setAllStr] returns nothing, i.e. a nil reply. *)
Definition run (s : Redis.Script) (key : string) (argv : list Z) (d : db)
    : Redis.reply * db :=
  let n := Z.to_nat (ARGV argv 1) in
  match s with
  | Redis.luaSetAll => (Redis.Nil, setAll_loop n 0 key argv d)
  | Redis.luaTestAll => (Redis.Int64 (testAll_loop n 0 key argv d), d)
  | Redis.luaSetAddAll =>
      let '(present, d') := setAddAll_loop n 0 key argv 1 d in
      (Redis.Int64 present, d')
  end.

(** The bit offsets a script run computes, in order of [ii]. *)
Definition positions (argv : list Z) : list Z :=
  map (fun ii => loc argv (Z.of_nat ii)) (seq 0 (Z.to_nat (ARGV argv 1))).

End Lua.

(** ** The go-redis backend [GoredisBloom] *)

Module GoredisBloom.

(** [client] is [None] for a nil interface value. *)
Record t : Type := mk {
  k : Z;
  m : Z;
  key : string;
  client : option Redis.UniversalClient
}.

Definition K (l : t) : Z := k l.
Definition M (l : t) : Z := m l.

(** The script arguments every method passes:
    [l.k, l.m, uint32(h[0]), uint32(h[1]), uint32(h[2]), uint32(h[3])]. *)
Definition args (l : t) (h : HashQuad) : list Z :=
  [k l; m l; wrap32 (h0 h); wrap32 (h1 h); wrap32 (h2 h); wrap32 (h3 h)].

Definition with_client (l : t) (c : Redis.UniversalClient) : t :=
  mk (k l) (m l) (key l) (Some c).

Definition SetAll (h : HashQuad) (l : t) : err * t :=
  match client l with
  | None => (Some ErrNoRedis, l)
  | Some c =>
      let '(_, e, w) :=
        Redis.Run c Redis.luaSetAll [key l] (args l h) (Redis.conn c) in
      let l' := with_client l (Redis.update c w) in
      match e with
      | Some e' => if negb (error_eqb e' RedisNil) then (Some e', l') else (None, l')
      | None => (None, l')
      end
  end.

(** The tail shared by [TestAll] and [TestAddAll]: the error check, the
    type assertion [data.(int64)] and the comparison with 1. *)
Definition decode (data : Redis.reply) (e : err) : bool * err :=
  match e with
  | Some e' => (false, Some e')
  | None =>
      match data with
      | Redis.Int64 ret => if ret =? 1 then (true, None) else (false, None)
      | _ => (false, Some ErrDataType)
      end
  end.

Definition TestAll (h : HashQuad) (l : t) : bool * err * t :=
  match client l with
  | None => (false, Some ErrNoRedis, l)
  | Some c =>
      let '(data, e, w) :=
        Redis.Run c Redis.luaTestAll [key l] (args l h) (Redis.conn c) in
      (decode data e, with_client l (Redis.update c w))
  end.

Definition TestAddAll (h : HashQuad) (l : t) : bool * err * t :=
  match client l with
  | None => (false, Some ErrNoRedis, l)
  | Some c =>
      let '(data, e, w) :=
        Redis.Run c Redis.luaSetAddAll [key l] (args l h) (Redis.conn c) in
      (decode data e, with_client l (Redis.update c w))
  end.

Definition ClearAll (l : t) : err * t :=
  match client l with
  | None => (Some ErrNoRedis, l)
  | Some c =>
      let '(e, w) := Redis.Del c (key l) (Redis.conn c) in
      (e, with_client l (Redis.update c w))
  end.

Definition bitmap (l : t) : BitMap.t :=
  BitMap.mk t l M K SetAll TestAll TestAddAll ClearAll.

(** The bit positions the scripts compute for the arguments this
    backend sends. *)
Definition positions (l : t) (h : HashQuad) : list Z :=
  Lua.positions (args l h).

(** A backend none of whose calls can succeed: no client, or a client
    every script run of which reports an error, in whatever state it is. *)
Definition fails_always (l : t) : Prop :=
  match client l with
  | None => True
  | Some c =>
      forall s keys argv w, exists e, snd (fst (Redis.Run c s keys argv w)) = Some e
  end.

(** The hash quadruple the server gets to see: [uint32(h[j])] each. *)
Definition low32 (h : HashQuad) : HashQuad :=
  mkQuad (wrap32 (h0 h)) (wrap32 (h1 h)) (wrap32 (h2 h)) (wrap32 (h3 h)).

End GoredisBloom.

(** A client connected to a reachable server: the scripts run on the
    server's keyspace, [Del] deletes the key, nothing fails.  go-redis
    reports a nil reply as the error [redis.Nil]. *)
Definition server_client (d : Lua.db) : Redis.UniversalClient :=
  Redis.mk Lua.db d
    (fun s keys argv d =>
       let '(r, d') := Lua.run s (hd EmptyString keys) argv d in
       match r with
       | Redis.Nil => (Redis.Nil, Some RedisNil, d')
       | _ => (r, None, d')
       end)
    (fun key d => (None, Lua.del d key)).

(** [NewGoredis(m, k, redisKey, client)] *)
Definition NewGoredis (m k : Z) (redisKey : string)
    (client : option Redis.UniversalClient) : BloomFilter :=
  let gb := GoredisBloom.mk (max 1 k) (max 1 m) redisKey client in
  NewBloom (GoredisBloom.bitmap gb).

(** ** The membership engine (bloom.go) *)

(** [binary.BigEndian.PutUint32(n1, v)] on a fresh 4-byte slice. *)
Definition byte_of_Z (z : Z) : Byte.byte :=
  match Byte.of_N (Z.to_N (z mod 256)) with
  | Some x => x
  | None => Byte.x00
  end.

Definition PutUint32 (v : Z) : list Byte.byte :=
  [byte_of_Z (Z.shiftr v 24); byte_of_Z (Z.shiftr v 16);
   byte_of_Z (Z.shiftr v 8); byte_of_Z v].

(** [float64(x)] for the small non-negative integers converted here. *)
Definition float64_of_Z (z : Z) : float := PrimFloat.of_uint63 (Uint63.of_Z z).

Section Engine.

(** The murmur3 digest [digest128.sum256] is a parameter: every property
    below holds whatever function of the key it is. *)
Variable sum256 : list Byte.byte -> Z * Z * Z * Z.

Definition baseHashes (data : list Byte.byte) : HashQuad :=
  let '(hash1, hash2, hash3, hash4) := sum256 data in
  mkQuad hash1 hash2 hash3 hash4.

Definition Cap (f : BloomFilter) : Z := BitMap.M (b f) (BitMap.self (b f)).
Definition K (f : BloomFilter) : Z := BitMap.K (b f) (BitMap.self (b f)).

Definition Add (data : list Byte.byte) (f : BloomFilter) : err * BloomFilter :=
  let h := baseHashes data in
  let '(e, s) := BitMap.SetAll (b f) h (BitMap.self (b f)) in
  (e, mkBloomFilter (BitMap.update (b f) s)).

Definition Test (data : list Byte.byte) (f : BloomFilter)
    : bool * err * BloomFilter :=
  let h := baseHashes data in
  let '(r, e, s) := BitMap.TestAll (b f) h (BitMap.self (b f)) in
  (r, e, mkBloomFilter (BitMap.update (b f) s)).

Definition TestAndAdd (data : list Byte.byte) (f : BloomFilter)
    : bool * err * BloomFilter :=
  let h := baseHashes data in
  let '(r, e, s) := BitMap.TestAddAll (b f) h (BitMap.self (b f)) in
  (r, e, mkBloomFilter (BitMap.update (b f) s)).

Definition ClearAll (f : BloomFilter) : err * BloomFilter :=
  let '(e, s) := BitMap.ClearAll (b f) (BitMap.self (b f)) in
  (e, mkBloomFilter (BitMap.update (b f) s)).

(** *** [EstimateFalsePositiveRate]

    Each goroutine makes one call on the filter, and such a call is
    atomic (mutex, or one server-side script), so a run of a phase is the
    goroutines' calls in some order.  [order1] and [order2] are those
    orders for the insertion and the test phase: lists of the loop
    indices [i], each index in [0, uint32(n)), respectively [0, rounds),
    once.  The channel only bounds how many goroutines are in flight and
    [wg.Wait()] separates the phases.  Errors of [ClearAll], [Add] and
    [Test] are dropped as in the source. *)

Definition rounds : Z := 100000.

Definition insert_phase (order1 : list Z) (f : BloomFilter) : BloomFilter :=
  fold_left (fun f ii => snd (Add (PutUint32 ii) f)) order1 f.

Definition test_phase (n : Z) (order2 : list Z) (fp : Z) (f : BloomFilter)
    : Z * BloomFilter :=
  fold_left
    (fun '(fp, f) ii =>
       let '(r, _, f') := Test (PutUint32 (wrap32 (wrap32 (ii + wrap32 n) + 1))) f in
       (if r then fp + 1 else fp, f'))
    order2 (fp, f).

Definition EstimateFalsePositiveRate (order1 order2 : list Z) (n : Z)
    (f : BloomFilter) : float * BloomFilter :=
  let '(_, f) := ClearAll f in
  let f := insert_phase order1 f in
  let '(fp, f) := test_phase n order2 0 f in
  let fpRate := PrimFloat.div (float64_of_Z fp) (float64_of_Z rounds) in
  let '(_, f) := ClearAll f in
  (fpRate, f).

(** *** Histories of calls on one filter *)

Inductive op : Type :=
| OpAdd (data : list Byte.byte)
| OpTest (data : list Byte.byte)
| OpTestAndAdd (data : list Byte.byte)
| OpClearAll.

Definition step (f : BloomFilter) (o : op) : BloomFilter :=
  match o with
  | OpAdd data => snd (Add data f)
  | OpTest data => snd (Test data f)
  | OpTestAndAdd data => snd (TestAndAdd data f)
  | OpClearAll => snd (ClearAll f)
  end.

Definition run (ops : list op) (f : BloomFilter) : BloomFilter :=
  fold_left step ops f.

(** The same history on a [LocalBloom] receiver directly. *)
Definition local_step (l : LocalBloom.t) (o : op) : LocalBloom.t :=
  match o with
  | OpAdd data => snd (LocalBloom.SetAll (baseHashes data) l)
  | OpTest data => snd (LocalBloom.TestAll (baseHashes data) l)
  | OpTestAndAdd data => snd (LocalBloom.TestAddAll (baseHashes data) l)
  | OpClearAll => snd (LocalBloom.ClearAll l)
  end.

Definition local_run (ops : list op) (l : LocalBloom.t) : LocalBloom.t :=
  fold_left local_step ops l.

(** [o] inserts [data]. *)
Definition inserts (data : list Byte.byte) (o : op) : Prop :=
  o = OpAdd data \/ o = OpTestAndAdd data.

Definition is_clear (o : op) : bool :=
  match o with OpClearAll => true | _ => false end.

End Engine.

(** *** Histories on a go-redis filter whose server is reachable *)

(** The receiver [g] with a client connected to the keyspace [d]. *)
Definition on_server (g : GoredisBloom.t) (d : Lua.db) : GoredisBloom.t :=
  GoredisBloom.mk (GoredisBloom.k g) (GoredisBloom.m g) (GoredisBloom.key g)
    (Some (server_client d)).

(** The in-process receiver [l] and the keyspace [d] hold the same bits
    for the filter [g]. *)
Definition same_bits (g : GoredisBloom.t) (l : LocalBloom.t) (d : Lua.db)
    : Prop :=
  LocalBloom.wf l /\ LocalBloom.k l = GoredisBloom.k g /\
  LocalBloom.M l = GoredisBloom.m g /\ GoredisBloom.k g <= 2 ^ 21 /\
  forall j, BitSet.valid (LocalBloom.b l) j ->
            BitSet.Test (LocalBloom.b l) j = d (GoredisBloom.key g) j.

(** The hashes as the go-redis backend sends them. *)
Definition sum256_low32 (sum256 : list Byte.byte -> Z * Z * Z * Z)
    (data : list Byte.byte) : Z * Z * Z * Z :=
  let '(hash1, hash2, hash3, hash4) := sum256 data in
  (wrap32 hash1, wrap32 hash2, wrap32 hash3, wrap32 hash4).

Section ServerHistories.

Variable sum256 : list Byte.byte -> Z * Z * Z * Z.

(** What a call does to the server's keyspace. *)
Definition server_step (g : GoredisBloom.t) (d : Lua.db) (o : op) : Lua.db :=
  match o with
  | OpAdd data =>
      snd (Lua.run Redis.luaSetAll (GoredisBloom.key g)
             (GoredisBloom.args g (baseHashes sum256 data)) d)
  | OpTest data => d
  | OpTestAndAdd data =>
      snd (Lua.run Redis.luaSetAddAll (GoredisBloom.key g)
             (GoredisBloom.args g (baseHashes sum256 data)) d)
  | OpClearAll => Lua.del d (GoredisBloom.key g)
  end.

Definition server_run (g : GoredisBloom.t) (ops : list op) (d : Lua.db)
    : Lua.db :=
  fold_left (server_step g) ops d.

End ServerHistories.

(** ** The parameter estimator (bloom.go)

    [EstimateParameters] computes in [float64] with [math.Log], [math.Pow]
    and [math.Ceil].  Floating point is not interpreted here: the type and
    its operations are parameters, and only the shape of the computation
    and what the constructors do with its results is kept. *)

Record float64_ops : Type := mkFloat64 {
  F : Type;
  of_int : Z -> F;          (* [float64(x)], also for the constants *)
  to_uint : F -> Z;         (* [uint(x)] *)
  fmul : F -> F -> F;
  fdiv : F -> F -> F;
  Log : F -> F;
  Pow : F -> F -> F;
  Ceil : F -> F
}.

Definition EstimateParameters (fl : float64_ops) (n : Z) (p : F fl) : Z * Z :=
  let m :=
    to_uint fl (Ceil fl
      (fdiv fl (fmul fl (fmul fl (of_int fl (-1)) (of_int fl n)) (Log fl p))
               (Pow fl (Log fl (of_int fl 2)) (of_int fl 2)))) in
  let k :=
    to_uint fl (Ceil fl
      (fdiv fl (fmul fl (Log fl (of_int fl 2)) (of_int fl m)) (of_int fl n))) in
  (m, k).

Definition NewLocalWithEstimates (fl : float64_ops) (n : Z) (fp : F fl)
    : BloomFilter :=
  let '(m, k) := EstimateParameters fl n fp in
  NewLocal m k.

Definition NewGoredisWithEstimates (fl : float64_ops) (n : Z) (fp : F fl)
    (redisKey : string) (client : option Redis.UniversalClient) : BloomFilter :=
  let '(m, k) := EstimateParameters fl n fp in
  NewGoredis m k redisKey client.

(** * Package cache

    The key/value cache that ships with the filter: [LocalCache]
    (local_cache.go) keeps its entries in a Go map and expires them from a
    timer goroutine, [GoredisCache] (goredis_cache.go) keeps them in Redis.

    Time and randomness are inputs of the model.  A [time.Time] is a
    number of nanoseconds on one clock, [0] being the zero [Time]; the
    instant [time.Now()] returns and the seed of the next [rand.Intn] draw
    are arguments of the method that asks for them.  Go's [int] is the
    64-bit signed integer, as is [time.Duration].  A method that panics
    returns [None]. *)

Module Cache.

(** [ErrNoRedis], [ErrDataType] of cache.go, go-redis's [redis.Nil], and
    any other error a client reports. *)
Inductive error : Type :=
| ErrNoRedis
| ErrDataType
| RedisNil
| ClientError (msg : string).

Definition error_eqb (e1 e2 : error) : bool :=
  match e1, e2 with
  | ErrNoRedis, ErrNoRedis | ErrDataType, ErrDataType | RedisNil, RedisNil => true
  | ClientError a, ClientError b => String.eqb a b
  | _, _ => false
  end.

Definition err : Type := option error.

(** An [interface{}] value by its dynamic type: [nil], the types the typed
    getters know, and anything else. *)
Inductive value : Type :=
| VNil
| VInt (z : Z) | VInt8 (z : Z) | VInt16 (z : Z) | VInt32 (z : Z) | VInt64 (z : Z)
| VUint (z : Z) | VUint8 (z : Z) | VUint16 (z : Z) | VUint32 (z : Z)
| VUint64 (z : Z)
| VFloat32 (f : float) | VFloat64 (f : float)
| VString (s : string)
| VBytes (bs : list Byte.byte)
| VBool (b : bool)
| VOther (type_name : string).

(** Conversion to [int64] / the result of an overflowing [int]
    operation. *)
Definition int64 (z : Z) : Z := (z + 2 ^ 63) mod 2 ^ 64 - 2 ^ 63.

(** [time.Second] *)
Definition Second : Z := 1000000000.

(** [r.Intn(n)]: panics for [n <= 0], else a number in [[0, n)] that the
    generator's state [seed] determines. *)
Definition Intn (n seed : Z) : option Z :=
  if n <=? 0 then None else Some (seed mod n).

End Cache.

Module cacheItem.

Record t : Type := mk { expireSec : Z; expireTime : Z; value : Cache.value }.

End cacheItem.

Module LocalCache.

Import Cache.

(** What a slot of [map[string]interface{}] holds: a [*cacheItem], or a
    value of another type (the methods check for it). *)
Inductive stored : Type :=
| Item (data : cacheItem.t)
| Foreign.

(** [struct { expireSec; r; m; cache; expireFn }]: [expireFn] is kept as
    whether it is set; what it is called with is an output of [sweep]. *)
Record t : Type := mk {
  expireSec : Z;
  cache : gmap string stored;
  expireFn : bool
}.

Inductive LocalOption : Type :=
| LocalWithExpire (expireSecond : Z)
| LocalExpireNotify.

Definition apply_option (c : t) (o : LocalOption) : t :=
  match o with
  | LocalWithExpire s => mk s (cache c) (expireFn c)
  | LocalExpireNotify => mk (expireSec c) (cache c) true
  end.

(** [NewLocalCache(ctx, opts...)]: the receiver it builds (the [Cache]
    wrapper only forwards its calls). *)
Definition NewLocalCache (opts : list LocalOption) : t :=
  fold_left apply_option opts (mk 0 ∅ false).

Definition with_cache (c : t) (m : gmap string stored) : t :=
  mk (expireSec c) m (expireFn c).

(** The expiry [Set] and [SetWithExpire] compute:
    [time.Now().Add(time.Second * time.Duration(sec + r.Intn(int(sec/10+1))))],
    the zero [Time] for [sec == 0]. *)
Definition set_expiry (now seed sec : Z) : option Z :=
  if sec =? 0 then Some 0
  else match Intn (int64 (Z.quot sec 10 + 1)) seed with
       | None => None
       | Some r => Some (now + int64 (Second * int64 (sec + r)))
       end.

Definition SetWithExpire (now seed : Z) (key : string) (v : value) (sec : Z)
    (c : t) : option (err * t) :=
  match set_expiry now seed sec with
  | None => None
  | Some exp =>
      Some (None,
            with_cache c (<[key := Item (cacheItem.mk sec exp v)]> (cache c)))
  end.

Definition Set' (now seed : Z) (key : string) (v : value) (c : t)
    : option (err * t) :=
  SetWithExpire now seed key v (expireSec c) c.

(** The expiry [Get] writes back:
    [time.Now().Add(time.Duration(sec)*time.Second + time.Duration(r.Intn(int(sec/10+1))))]. *)
Definition get_expiry (now seed sec : Z) : option Z :=
  match Intn (int64 (Z.quot sec 10 + 1)) seed with
  | None => None
  | Some r => Some (now + int64 (int64 (sec * Second) + r))
  end.

Definition Get (now seed : Z) (key : string) (c : t)
    : option (value * err * t) :=
  match cache c !! key with
  | None => Some (VNil, None, c)
  | Some Foreign => Some (VNil, Some ErrDataType, c)
  | Some (Item data) =>
      if cacheItem.expireSec data =? 0
      then Some (cacheItem.value data, None, c)
      else
        match get_expiry now seed (cacheItem.expireSec data) with
        | None => None
        | Some exp =>
            let data' :=
              cacheItem.mk (cacheItem.expireSec data) exp (cacheItem.value data) in
            Some (cacheItem.value data, None,
                  with_cache c (<[key := Item data']> (cache c)))
        end
  end.

(** The typed getters: [Get], then a type switch on the value.  A pointer
    result is an [option]. *)
Definition GetInt (now seed : Z) (key : string) (c : t)
    : option (option Z * err * t) :=
  match Get now seed key c with
  | None => None
  | Some (v, e, c') =>
      Some (match v with
            | VNil => (None, e)
            | VInt z | VInt8 z | VInt16 z | VInt32 z | VInt64 z
            | VUint z | VUint8 z | VUint16 z | VUint32 z => (Some (int64 z), None)
            | _ => (None, Some ErrDataType)
            end, c')
  end.

Definition GetFloat (now seed : Z) (key : string) (c : t)
    : option (option float * err * t) :=
  match Get now seed key c with
  | None => None
  | Some (v, e, c') =>
      Some (match v with
            | VNil => (None, e)
            | VFloat32 f | VFloat64 f => (Some f, None)
            | _ => (None, Some ErrDataType)
            end, c')
  end.

Definition GetString (now seed : Z) (key : string) (c : t)
    : option (string * err * t) :=
  match Get now seed key c with
  | None => None
  | Some (v, e, c') =>
      Some (match v with
            | VNil => (EmptyString, e)
            | VString s => (s, None)
            | VBytes bs => (string_of_list_byte bs, None)
            | _ => (EmptyString, Some ErrDataType)
            end, c')
  end.

Definition GetBytes (now seed : Z) (key : string) (c : t)
    : option (option (list Byte.byte) * err * t) :=
  match Get now seed key c with
  | None => None
  | Some (v, e, c') =>
      Some (match v with
            | VNil => (None, e)
            | VString s => (Some (list_byte_of_string s), None)
            | VBytes bs => (Some bs, None)
            | _ => (None, Some ErrDataType)
            end, c')
  end.

(** In [case float32, float64, int, int64: if v == 1], [v] is still the
    [interface{}] value and [1] becomes an [int]: the comparison holds
    only for the [int] 1. *)
Definition GetBool (now seed : Z) (key : string) (c : t)
    : option (option bool * err * t) :=
  match Get now seed key c with
  | None => None
  | Some (v, e, c') =>
      Some (match v with
            | VNil => (None, e)
            | VInt z => (Some (z =? 1), None)
            | VFloat32 _ | VFloat64 _ | VInt64 _ => (Some false, None)
            | VString s =>
                (Some (String.eqb s "true" || String.eqb s "1"
                       || String.eqb s "t" || String.eqb s "T"), None)
            | VBool b => (Some b, None)
            | _ => (None, Some ErrDataType)
            end, c')
  end.

Definition Del (key : string) (c : t) : err * t :=
  (None, with_cache c (delete key (cache c))).

(** One firing of the timer in [runExpireCheck].  The loop asks
    [time.Now()] once per entry: [now_at k] is the instant at which the
    entry of [k] is looked at.  An entry goes when it is not a
    [*cacheItem], or when its expiry is not the zero [Time] and lies
    before that instant. *)
Definition expired (now_at : string -> Z) (k : string) (data : cacheItem.t)
    : bool :=
  negb (cacheItem.expireTime data =? 0) && (cacheItem.expireTime data <? now_at k).

Definition kept (now_at : string -> Z) (k : string) (s : stored) : bool :=
  match s with
  | Item data => negb (expired now_at k data)
  | Foreign => false
  end.

(** The calls of [expireFn], in the order the map was ranged over (an
    order Go does not fix), and the receiver afterwards. *)
Definition sweep (now_at : string -> Z) (c : t)
    : list (string * value) * t :=
  let gone :=
    omap (fun kv : string * stored =>
            match kv.2 with
            | Item data =>
                if expired now_at kv.1 data
                then Some (kv.1, cacheItem.value data) else None
            | Foreign => None
            end)
         (map_to_list (cache c)) in
  (if expireFn c then gone else [],
   with_cache c
     (filter (fun kv : string * stored => kept now_at kv.1 kv.2 = true) (cache c))).

(** Histories of calls on one cache. *)
Inductive call : Type :=
| CSet (now seed : Z) (key : string) (v : value)
| CSetWithExpire (now seed : Z) (key : string) (v : value) (sec : Z)
| CGet (now seed : Z) (key : string)
| CDel (key : string)
| CSweep (now_at : string -> Z).

Definition step (c : t) (x : call) : option t :=
  match x with
  | CSet now seed key v => snd <$> Set' now seed key v c
  | CSetWithExpire now seed key v sec => snd <$> SetWithExpire now seed key v sec c
  | CGet now seed key => snd <$> Get now seed key c
  | CDel key => Some (snd (Del key c))
  | CSweep now_at => Some (snd (sweep now_at c))
  end.

Fixpoint run (xs : list call) (c : t) : option t :=
  match xs with
  | [] => Some c
  | x :: xs' =>
      match step c x with
      | None => None
      | Some c' => run xs' c'
      end
  end.

(** The items for which the expiry computation of [Set] and [Get] does
    not panic. *)
Definition drawable (sec : Z) : Prop :=
  sec = 0 \/ 0 < int64 (Z.quot sec 10 + 1).

(** Every slot holds a [*cacheItem] whose expiry can be drawn. *)
Definition healthy (c : t) : Prop :=
  forall k s, cache c !! k = Some s ->
    exists data, s = Item data /\ drawable (cacheItem.expireSec data).

End LocalCache.

(** What a typed getter returns for [key] right after [v] was stored
    under it ([None] if a call panicked). *)
Definition stored_then_read {R : Type}
    (getter : Z -> Z -> string -> LocalCache.t
              -> option (R * Cache.err * LocalCache.t))
    (now seed now' seed' : Z) (key : string) (sec : Z) (c : LocalCache.t)
    (v : Cache.value) : option (R * Cache.err) :=
  match LocalCache.SetWithExpire now seed key v sec c with
  | Some (_, c1) => fst <$> getter now' seed' key c1
  | None => None
  end.

(** * Properties *)

(** ** Arithmetic *)

Module UintFacts.

Lemma wrap64_range z : is_uint64 (wrap64 z).
Proof. unfold is_uint64, wrap64, modulus64. apply Z.mod_pos_bound. lia. Qed.

Lemma wrap64_small z : is_uint64 z -> wrap64 z = z.
Proof. unfold is_uint64, wrap64. intros H. now apply Z.mod_small. Qed.

Lemma wrap32_range z : 0 <= wrap32 z < modulus32.
Proof. unfold wrap32, modulus32. apply Z.mod_pos_bound. lia. Qed.

Lemma wrap32_small z : 0 <= z < modulus32 -> wrap32 z = z.
Proof. unfold wrap32. intros H. now apply Z.mod_small. Qed.

Lemma max_ge_l x y : x <= max x y.
Proof. unfold max. destruct (Z.ltb_spec y x); lia. Qed.

Lemma max_ge_r x y : y <= max x y.
Proof. unfold max. destruct (Z.ltb_spec y x); lia. Qed.

End UintFacts.

Import UintFacts.

(** ** The location scheme *)

Lemma mod4_of_wrap64 z : (wrap64 z) mod 4 = z mod 4.
Proof.
  unfold wrap64, modulus64.
  apply Z.mod_mod_divide.
  exists (2 ^ 62). reflexivity.
Qed.

(** Both index expressions of [location] stay inside the array. *)
Lemma location_indices (ii : Z) :
  0 <= ii mod 2 <= 1 /\ 2 <= 2 + (add64 ii (ii mod 2)) mod 4 / 2 <= 3.
Proof.
  split; [pose proof (Z.mod_pos_bound ii 2); lia|].
  pose proof (Z.mod_pos_bound (add64 ii (ii mod 2)) 4 ltac:(lia)) as Hb.
  assert (0 <= add64 ii (ii mod 2) mod 4 / 2 <= 1); [|lia].
  split; [apply Z.div_pos; lia|].
  apply Z.lt_succ_r, Z.div_lt_upper_bound; lia.
Qed.

Lemma location_range h i : is_uint64 (location h i).
Proof. unfold location, add64. apply wrap64_range. Qed.

Lemma location_spec_location h i :
  is_uint64 i -> location h i = spec_location h i.
Proof.
  intros Hi. unfold location, spec_location.
  rewrite (wrap64_small i Hi).
  unfold add64 at 2. rewrite mod4_of_wrap64.
  unfold add64, mul64, wrap64, modulus64.
  now rewrite Zplus_mod_idemp_r.
Qed.

(** The four index patterns, and a sum that wraps. *)
Example location_examples :
  map (location (mkQuad 1 2 3 4)) [0; 1; 2; 3; 4; 5] = [1; 6; 9; 11; 13; 22] /\
  location (mkQuad 18446744073709551615 0 0 5) 2 = 9.
Proof. split; reflexivity. Qed.

(** ** The bit vector *)

Module BitSetFacts.

Import BitSet.

(** *** Bit-level facts *)

Lemma shiftr6 i : Z.shiftr i log2WordSize = i / 64.
Proof. unfold log2WordSize. now rewrite Z.shiftr_div_pow2 by lia. Qed.

Lemma land63 i : Z.land i (wordSize - 1) = i mod 64.
Proof.
  change (wordSize - 1) with (Z.ones 6). now rewrite Z.land_ones by lia.
Qed.

Lemma bitMask_pow2 i : bitMask i = 2 ^ (i mod 64).
Proof. unfold bitMask. now rewrite land63, Z.shiftl_1_l. Qed.

Lemma mask_test w n :
  0 <= n -> negb (Z.land w (2 ^ n) =? 0) = Z.testbit w n.
Proof.
  intros Hn. destruct (Z.testbit w n) eqn:E.
  - destruct (Z.eqb_spec (Z.land w (2 ^ n)) 0) as [H0|]; [|reflexivity].
    assert (Z.testbit (Z.land w (2 ^ n)) n = true) as Hb.
    { rewrite Z.land_spec, E, Z.pow2_bits_true; auto. }
    rewrite H0, Z.bits_0 in Hb. discriminate.
  - assert (Z.land w (2 ^ n) = 0) as ->; [|reflexivity].
    apply Z.bits_inj'. intros m Hm.
    rewrite Z.land_spec, Z.bits_0, Z.pow2_bits_eqb by lia.
    destruct (Z.eqb_spec n m); subst; rewrite ?E; auto using andb_false_r.
Qed.

Lemma wordIndex_lt (b : t) i :
  wf b -> valid b i -> (wordIndex i < List.length (set b))%nat.
Proof.
  unfold wf, valid, wordIndex. intros [_ Hw] Hi. rewrite shiftr6.
  assert (i / 64 < Z.of_nat (List.length (set b))).
  { apply Z.div_lt_upper_bound; lia. }
  assert (0 <= i / 64) by (apply Z.div_pos; lia).
  lia.
Qed.

Lemma Test_testbit (b : t) i :
  wf b -> valid b i ->
  exists w, set b !! wordIndex i = Some w /\ Test b i = Z.testbit w (i mod 64).
Proof.
  intros Hwf Hi.
  destruct (lookup_lt_is_Some_2 (set b) (wordIndex i)) as [w Hw].
  { now apply wordIndex_lt. }
  exists w. split; [exact Hw|].
  unfold Test. destruct Hi as [Hi0 Hi1].
  destruct (Z.leb_spec (length b) i); [lia|].
  rewrite Hw, bitMask_pow2. apply mask_test.
  pose proof (Z.mod_pos_bound i 64). lia.
Qed.

Lemma same_position i j :
  0 <= i -> 0 <= j -> wordIndex i = wordIndex j -> i mod 64 = j mod 64 -> i = j.
Proof.
  unfold wordIndex. rewrite !shiftr6. intros Hi Hj Hw Hm.
  assert (i / 64 = j / 64).
  { assert (0 <= i / 64) by (apply Z.div_pos; lia).
    assert (0 <= j / 64) by (apply Z.div_pos; lia). lia. }
  rewrite (Z.div_mod i 64), (Z.div_mod j 64) by lia. congruence.
Qed.

(** *** What the operations do to the bits *)

Lemma extendSetMaybe_valid (b : t) i : valid b i -> extendSetMaybe b i = b.
Proof.
  unfold valid, extendSetMaybe. intros Hi.
  destruct (Z.leb_spec (length b) i); [lia | reflexivity].
Qed.

Lemma length_Set' (b : t) i : valid b i -> length (Set' b i) = length b.
Proof. intros Hi. unfold Set'. now rewrite extendSetMaybe_valid. Qed.

Lemma wf_Set' (b : t) i : wf b -> valid b i -> wf (Set' b i).
Proof.
  intros Hwf Hi. unfold wf, Set'. rewrite extendSetMaybe_valid by assumption.
  simpl. now rewrite length_alter.
Qed.

Lemma valid_Set' (b : t) i j : valid b i -> valid (Set' b i) j <-> valid b j.
Proof. intros Hi. unfold valid. now rewrite length_Set'. Qed.

(** Setting bit [i] turns it on and leaves every other bit as it was. *)
Lemma Test_Set' (b : t) i j :
  wf b -> valid b i -> valid b j ->
  Test (Set' b i) j = (i =? j) || Test b j.
Proof.
  intros Hwf Hi Hj.
  destruct (Test_testbit b j Hwf Hj) as (w & Hw & ->).
  destruct (Test_testbit (Set' b i) j) as (w' & Hw' & ->).
  { now apply wf_Set'. } { now apply valid_Set'. }
  unfold Set' in Hw'. rewrite extendSetMaybe_valid in Hw' by assumption.
  simpl in Hw'. rewrite list_lookup_alter in Hw'.
  assert (0 <= j mod 64 < 64) by (apply Z.mod_pos_bound; lia).
  assert (0 <= i mod 64 < 64) by (apply Z.mod_pos_bound; lia).
  destruct (decide (wordIndex i = wordIndex j)) as [Hij|Hij].
  - rewrite Hij, Hw in Hw'. simpl in Hw'. injection Hw' as <-.
    rewrite Z.lor_spec, bitMask_pow2, Z.pow2_bits_eqb, orb_comm by lia.
    f_equal.
    destruct (Z.eqb_spec (i mod 64) (j mod 64)) as [Hm|Hm];
      destruct (Z.eqb_spec i j) as [He|He]; try reflexivity.
    + exfalso. apply He. destruct Hi, Hj. now apply same_position.
    + subst. contradiction.
  - rewrite Hw in Hw'. injection Hw' as <-.
    destruct (Z.eqb_spec i j) as [->|]; [contradiction | reflexivity].
Qed.

(** Setting a bit that is already on changes nothing, not even the
    representation. *)
Lemma Set'_of_set (b : t) i :
  wf b -> valid b i -> Test b i = true -> Set' b i = b.
Proof.
  intros Hwf Hi Ht.
  destruct (Test_testbit b i Hwf Hi) as (w & Hw & Hb). rewrite Ht in Hb.
  unfold Set'. rewrite extendSetMaybe_valid by assumption.
  destruct b as [len ws]. simpl in *. f_equal.
  apply list_eq. intros n. rewrite list_lookup_alter.
  destruct (decide (wordIndex i = n)) as [<-|]; [|reflexivity].
  rewrite Hw. simpl. f_equal.
  assert (0 <= i mod 64 < 64) by (apply Z.mod_pos_bound; lia).
  apply Z.bits_inj'. intros m Hm.
  rewrite Z.lor_spec, bitMask_pow2, Z.pow2_bits_eqb by lia.
  destruct (Z.eqb_spec (i mod 64) m) as [<-|]; [|apply orb_false_r].
  now rewrite <- Hb.
Qed.

Lemma length_ClearAll (b : t) : length (ClearAll b) = length b.
Proof. reflexivity. Qed.

Lemma wf_ClearAll (b : t) : wf b -> wf (ClearAll b).
Proof. unfold wf, ClearAll. simpl. now rewrite length_map. Qed.

(** After [ClearAll] no bit tests as set. *)
Lemma Test_ClearAll (b : t) i : Test (ClearAll b) i = false.
Proof.
  unfold Test, ClearAll. simpl.
  destruct (length b <=? i); [reflexivity|].
  change (map (fun _ : Z => 0) (set b)) with ((fun _ : Z => 0) <$> set b).
  rewrite list_lookup_fmap.
  destruct (set b !! wordIndex i); reflexivity.
Qed.

Lemma Test_New len i : Test (New len) i = false.
Proof.
  unfold Test, New. simpl.
  destruct (len <=? i); [reflexivity|].
  destruct (replicate _ 0 !! wordIndex i) as [w|] eqn:E; [|reflexivity].
  apply lookup_replicate_1 in E as [-> _]. reflexivity.
Qed.

Lemma wf_New len : 0 < len <= maxLen -> wf (New len).
Proof.
  unfold maxLen, wf, New, wordsNeeded, Cap, wordSize. simpl length.
  intros Hlen. simpl set. rewrite length_replicate.
  change (2 ^ 64 - 1 - 64 + 1) with 18446744073709551552 in *.
  destruct (Z.ltb_spec 18446744073709551552 len); [lia|].
  split; [lia|].
  unfold add64. rewrite wrap64_small by (unfold is_uint64, modulus64; lia).
  rewrite shiftr6.
  assert (0 <= (len + (64 - 1)) / 64) by (apply Z.div_pos; lia).
  rewrite Z2Nat.id by assumption.
  pose proof (Z.mul_div_le (len + (64 - 1)) 64 ltac:(lia)).
  pose proof (Z.mod_pos_bound (len + (64 - 1)) 64 ltac:(lia)).
  pose proof (Z.div_mod (len + (64 - 1)) 64 ltac:(lia)).
  lia.
Qed.

End BitSetFacts.

(** ** The in-process backend *)

Module LocalBloomFacts.

Import LocalBloom BitSetFacts.

Lemma mk_eta (l : t) : mk (k l) (b l) = l.
Proof. now destruct l. Qed.

(** The position of iteration [i] is [location(h,i)] reduced modulo the
    filter size, and it is a bit of the vector. *)
Lemma loc_eq (l : t) h i : wf l -> loc l h i = location h i mod M l.
Proof.
  intros (_ & [Hpos _] & Hlt). unfold loc, M, BitSet.Len.
  rewrite (wrap64_small (BitSet.length (b l))) by (unfold is_uint64; lia).
  apply wrap64_small.
  pose proof (Z.mod_pos_bound (location h i) (BitSet.length (b l)) Hpos).
  unfold is_uint64. lia.
Qed.

Lemma loc_valid (l : t) h i : wf l -> BitSet.valid (b l) (loc l h i).
Proof.
  intros Hwf. rewrite loc_eq by assumption.
  destruct Hwf as (_ & [Hpos _] & _).
  apply Z.mod_pos_bound. exact Hpos.
Qed.

Lemma loc_length (l l' : t) h i :
  BitSet.length (b l') = BitSet.length (b l) -> loc l' h i = loc l h i.
Proof. intros H. unfold loc, BitSet.Len. now rewrite H. Qed.

Lemma visits_length (l l' : t) h j n :
  BitSet.length (b l') = BitSet.length (b l) ->
  forall i, visits n i h l' j = visits n i h l j.
Proof.
  intros H. induction n as [|n IH]; intros i; simpl; [reflexivity|].
  now rewrite IH, (loc_length l l').
Qed.

Lemma wf_set1 (l : t) p : wf l -> BitSet.valid (b l) p -> wf (set1 l p).
Proof.
  intros (Hk & Hb & Hlt) Hp. unfold wf, set1. cbn [k b].
  rewrite length_Set' by assumption. auto using wf_Set'.
Qed.

Lemma length_set1 (l : t) p :
  BitSet.valid (b l) p -> BitSet.length (b (set1 l p)) = BitSet.length (b l).
Proof. intros Hp. unfold set1. cbn [b]. now apply length_Set'. Qed.

Lemma SetAll_loop_S h n i (l : t) :
  SetAll_loop (Datatypes.S n) i h l
  = SetAll_loop n (i + 1) h (set1 l (loc l h i)).
Proof. reflexivity. Qed.

Lemma TestAddAll_loop_S h n i present (l : t) :
  TestAddAll_loop (Datatypes.S n) i h present l
  = TestAddAll_loop n (i + 1) h
      (if negb (BitSet.Test (b l) (loc l h i)) then false else present)
      (set1 l (loc l h i)).
Proof. reflexivity. Qed.

Lemma SetAll_loop_inv h n :
  forall i l, wf l ->
    wf (SetAll_loop n i h l) /\
    k (SetAll_loop n i h l) = k l /\
    BitSet.length (b (SetAll_loop n i h l)) = BitSet.length (b l).
Proof.
  induction n as [|n IH]; intros i l Hwf; [simpl; auto|].
  rewrite SetAll_loop_S.
  pose proof (loc_valid l h i Hwf) as Hp.
  destruct (IH (i + 1) (set1 l (loc l h i)) (wf_set1 _ _ Hwf Hp))
    as (H1 & H2 & H3).
  split; [exact H1|]. split; [exact H2|].
  rewrite H3. now apply length_set1.
Qed.

(** After the loop a bit is on iff it was on before or the loop visited
    it. *)
Lemma Test_SetAll_loop h n :
  forall i l j, wf l -> BitSet.valid (b l) j ->
    BitSet.Test (b (SetAll_loop n i h l)) j
    = BitSet.Test (b l) j || visits n i h l j.
Proof.
  induction n as [|n IH]; intros i l j Hwf Hj.
  - simpl. now rewrite orb_false_r.
  - pose proof (loc_valid l h i Hwf) as Hp.
    rewrite SetAll_loop_S, IH.
    + rewrite (visits_length l (set1 l (loc l h i))) by now apply length_set1.
      unfold set1. cbn [b visits].
      rewrite Test_Set' by (assumption || apply Hwf).
      destruct (loc l h i =? j), (BitSet.Test (b l) j); reflexivity.
    + now apply wf_set1.
    + unfold BitSet.valid. rewrite length_set1; assumption.
Qed.

Lemma TestAll_loop_visits h n :
  forall i l,
    (forall j, visits n i h l j = true -> BitSet.Test (b l) j = true) ->
    TestAll_loop n i h l = true.
Proof.
  induction n as [|n IH]; intros i l H; simpl; [reflexivity|].
  rewrite (H (loc l h i)) by (simpl; now rewrite Z.eqb_refl).
  simpl. apply IH. intros j Hj. apply H. simpl. rewrite Hj. apply orb_true_r.
Qed.

Lemma visits_valid h n :
  forall i l j, wf l -> visits n i h l j = true -> BitSet.valid (b l) j.
Proof.
  induction n as [|n IH]; intros i l j Hwf; simpl; [discriminate|].
  destruct (Z.eqb_spec (loc l h i) j) as [<-|_]; simpl.
  - intros _. now apply loc_valid.
  - now apply IH.
Qed.

Lemma map_seq_S {A : Type} (f : nat -> A) n :
  map f (seq 0 (Datatypes.S n))
  = f 0%nat :: map (fun t => f (Datatypes.S t)) (seq 0 n).
Proof. simpl. f_equal. now rewrite <- seq_shift, map_map. Qed.

Lemma visits_In h n :
  forall i l j,
    visits n i h l j = true <->
    In j (map (fun t => loc l h (i + Z.of_nat t)) (seq 0 n)).
Proof.
  induction n as [|n IH]; intros i l j.
  - simpl. split; [discriminate | tauto].
  - rewrite map_seq_S. cbn [visits In]. rewrite orb_true_iff, IH, Z.add_0_r.
    rewrite Z.eqb_eq.
    assert (map (fun t => loc l h (i + 1 + Z.of_nat t)) (seq 0 n)
            = map (fun t => loc l h (i + Z.of_nat (Datatypes.S t))) (seq 0 n))
      as ->; [|reflexivity].
    apply map_ext. intros t. f_equal. lia.
Qed.

(** [SetAll] turns on exactly the bits at [positions]. *)
Lemma SetAll_sets_positions h (l : t) j :
  wf l -> BitSet.valid (b l) j ->
  BitSet.Test (b (snd (SetAll h l))) j = true <->
  BitSet.Test (b l) j = true \/ In j (positions l h).
Proof.
  intros Hwf Hj. unfold SetAll, positions. cbn [snd].
  rewrite Test_SetAll_loop, orb_true_iff, visits_In by assumption.
  reflexivity.
Qed.

(** What [SetAll] has set, [TestAll] finds. *)
Lemma TestAll_after_SetAll h (l : t) n :
  wf l -> TestAll_loop n 0 h (SetAll_loop n 0 h l) = true.
Proof.
  intros Hwf. destruct (SetAll_loop_inv h n 0 l Hwf) as (Hwf' & Hk & Hlen).
  apply TestAll_loop_visits. intros j Hj.
  rewrite (visits_length l) in Hj by assumption.
  rewrite Test_SetAll_loop by eauto using visits_valid.
  rewrite Hj. apply orb_true_r.
Qed.

(** [TestAll] is monotone in the bits. *)
Lemma TestAll_loop_mono h n :
  forall i l l', wf l -> le l l' ->
    TestAll_loop n i h l = true -> TestAll_loop n i h l' = true.
Proof.
  induction n as [|n IH]; intros i l l' Hwf Hle; simpl; [reflexivity|].
  destruct Hle as (Hk & Hlen & Hbits).
  rewrite (loc_length l l') by assumption.
  destruct (BitSet.Test (b l) (loc l h i)) eqn:E; simpl; [|discriminate].
  rewrite (Hbits _ (loc_valid l h i Hwf) E). simpl.
  apply IH; [assumption | now repeat split].
Qed.

Lemma le_refl (l : t) : le l l.
Proof. now repeat split. Qed.

Lemma le_trans (l1 l2 l3 : t) : le l1 l2 -> le l2 l3 -> le l1 l3.
Proof.
  intros (Hk & Hlen & H) (Hk' & Hlen' & H'). repeat split; try congruence.
  intros j Hj Ht. apply H'; [|now apply H].
  unfold BitSet.valid in *. now rewrite Hlen.
Qed.

Lemma le_SetAll_loop h n i (l : t) : wf l -> le l (SetAll_loop n i h l).
Proof.
  intros Hwf. destruct (SetAll_loop_inv h n i l Hwf) as (_ & Hk & Hlen).
  repeat split; try assumption.
  intros j Hj Ht. rewrite Test_SetAll_loop by assumption. now rewrite Ht.
Qed.

(** The interleaved loop of [TestAddAll] computes what [TestAll] and
    [SetAll] compute separately. *)
Lemma TestAddAll_loop_split h n :
  forall i present l, wf l ->
    TestAddAll_loop n i h present l
    = (present && TestAll_loop n i h l, SetAll_loop n i h l).
Proof.
  induction n as [|n IH]; intros i present l Hwf.
  - simpl. now rewrite andb_true_r.
  - pose proof (loc_valid l h i Hwf) as Hp.
    rewrite TestAddAll_loop_S, SetAll_loop_S, IH by now apply wf_set1.
    cbn [TestAll_loop].
    destruct (BitSet.Test (b l) (loc l h i)) eqn:E; cbn [negb].
    + unfold set1. rewrite Set'_of_set by (assumption || apply Hwf).
      now rewrite mk_eta.
    + now rewrite andb_false_r.
Qed.

Lemma local_wf_ClearAll (l : t) : wf l -> wf (snd (ClearAll l)).
Proof.
  intros (Hk & Hb & Hlt). unfold wf. simpl.
  auto using BitSetFacts.wf_ClearAll.
Qed.

Lemma local_wf_New m k :
  0 <= m <= BitSet.maxLen -> is_uint64 k ->
  wf (mk (Uint.max 1 k) (BitSet.New (Uint.max 1 m))).
Proof.
  intros Hm Hk. unfold wf. simpl.
  assert (0 < Uint.max 1 m <= BitSet.maxLen) as Hmax.
  { unfold Uint.max, BitSet.maxLen in *.
    destruct (Z.ltb_spec m 1); [|lia]. split; [lia|].
    unfold BitSet.Cap, BitSet.wordSize. lia. }
  split; [|split].
  - unfold Uint.max, is_uint64, modulus64 in *.
    destruct (Z.ltb_spec k 1); lia.
  - now apply BitSetFacts.wf_New.
  - unfold BitSet.maxLen, BitSet.Cap, BitSet.wordSize, modulus64 in *. lia.
Qed.

End LocalBloomFacts.

(** ** The membership engine over the in-process backend *)

Section EngineFacts.

Variable sum256 : list Byte.byte -> Z * Z * Z * Z.

Import LocalBloomFacts.

Abbreviation local l := (NewBloom (LocalBloom.bitmap l)).

(** A call on the filter is the call on its receiver. *)
Lemma step_local (l : LocalBloom.t) o :
  step sum256 (local l) o = local (local_step sum256 l o).
Proof.
  destruct o as [data|data|data|]; try reflexivity.
  unfold step, local_step, TestAndAdd. cbn.
  unfold LocalBloom.TestAddAll.
  now destruct (LocalBloom.TestAddAll_loop _ _ _ _ _).
Qed.

Lemma run_local ops :
  forall l, run sum256 ops (local l) = local (local_run sum256 ops l).
Proof.
  induction ops as [|o ops IH]; intros l; [reflexivity|].
  unfold run, local_run in *. simpl. now rewrite step_local, IH.
Qed.

Lemma Test_local data (l : LocalBloom.t) :
  fst (Test sum256 data (local l))
  = (LocalBloom.TestAll_loop (Z.to_nat (LocalBloom.k l)) 0
       (baseHashes sum256 data) l, None).
Proof. reflexivity. Qed.

Lemma local_step_TestAndAdd data (l : LocalBloom.t) :
  LocalBloom.wf l ->
  local_step sum256 l (OpTestAndAdd data) = local_step sum256 l (OpAdd data).
Proof.
  intros Hwf. unfold local_step, LocalBloom.TestAddAll, LocalBloom.SetAll.
  now rewrite TestAddAll_loop_split.
Qed.

Lemma local_step_wf (l : LocalBloom.t) o :
  LocalBloom.wf l -> LocalBloom.wf (local_step sum256 l o).
Proof.
  intros Hwf. destruct o as [data|data|data|].
  - apply SetAll_loop_inv, Hwf.
  - exact Hwf.
  - rewrite local_step_TestAndAdd by assumption. apply SetAll_loop_inv, Hwf.
  - now apply local_wf_ClearAll.
Qed.

Lemma local_run_wf ops :
  forall l, LocalBloom.wf l -> LocalBloom.wf (local_run sum256 ops l).
Proof.
  induction ops as [|o ops IH]; intros l Hwf; [exact Hwf|].
  apply IH. now apply local_step_wf.
Qed.

Lemma local_step_k (l : LocalBloom.t) o :
  LocalBloom.wf l -> LocalBloom.k (local_step sum256 l o) = LocalBloom.k l.
Proof.
  intros Hwf. destruct o as [data|data|data|]; try reflexivity.
  - apply SetAll_loop_inv, Hwf.
  - rewrite local_step_TestAndAdd by assumption. apply SetAll_loop_inv, Hwf.
Qed.

Lemma local_run_k ops :
  forall l, LocalBloom.wf l ->
            LocalBloom.k (local_run sum256 ops l) = LocalBloom.k l.
Proof.
  induction ops as [|o ops IH]; intros l Hwf; [reflexivity|].
  unfold local_run in *. simpl.
  rewrite IH by now apply local_step_wf. now apply local_step_k.
Qed.

Lemma local_step_le (l : LocalBloom.t) o :
  LocalBloom.wf l -> is_clear o = false ->
  LocalBloom.le l (local_step sum256 l o).
Proof.
  intros Hwf Hc. destruct o as [data|data|data|]; try discriminate.
  - now apply le_SetAll_loop.
  - apply le_refl.
  - rewrite local_step_TestAndAdd by assumption. now apply le_SetAll_loop.
Qed.

Lemma local_run_le ops :
  forall l, LocalBloom.wf l -> existsb is_clear ops = false ->
            LocalBloom.le l (local_run sum256 ops l).
Proof.
  induction ops as [|o ops IH]; intros l Hwf Hc; [apply le_refl|].
  simpl in Hc. apply orb_false_iff in Hc as [Ho Hops].
  apply (le_trans _ (local_step sum256 l o)); [now apply local_step_le|].
  apply IH; [now apply local_step_wf | assumption].
Qed.

(** Right after a key is inserted, the filter finds it. *)
Lemma found_after_insert data (l : LocalBloom.t) o :
  LocalBloom.wf l -> inserts data o ->
  let l' := local_step sum256 l o in
  LocalBloom.TestAll_loop (Z.to_nat (LocalBloom.k l')) 0
    (baseHashes sum256 data) l' = true.
Proof.
  intros Hwf Hins l'.
  assert (l' = local_step sum256 l (OpAdd data)) as ->.
  { subst l'. destruct Hins as [->| ->]; [reflexivity|].
    now apply local_step_TestAndAdd. }
  cbn [local_step LocalBloom.SetAll snd].
  destruct (SetAll_loop_inv (baseHashes sum256 data)
              (Z.to_nat (LocalBloom.k l)) 0 l Hwf) as (_ & -> & _).
  now apply TestAll_after_SetAll.
Qed.

End EngineFacts.

(** ** The server-side position arithmetic *)

Module LuaFacts.

Import GoredisBloom.

Lemma low32_range h j : 0 <= hget (low32 h) j < 2 ^ 32.
Proof.
  unfold hget, low32.
  repeat match goal with
         | |- context [match ?x with _ => _ end] => destruct x
         end; simpl; try apply wrap32_range; lia.
Qed.

(** The script's table lookup is the array lookup one index lower, on
    the truncated hashes. *)
Lemma h_args (g : t) hq j :
  0 <= j <= 3 -> Lua.h (args g hq) (j + 1) = hget (low32 hq) j.
Proof.
  intros Hj.
  assert (j = 0 \/ j = 1 \/ j = 2 \/ j = 3) as [-> | [-> | [-> | ->]]] by lia;
    reflexivity.
Qed.

Lemma index_bounds ii :
  0 <= ii mod 2 <= 1 /\ 0 <= ((ii + ii mod 2) mod 4) / 2 <= 1.
Proof.
  pose proof (Z.mod_pos_bound ii 2 ltac:(lia)).
  pose proof (Z.mod_pos_bound (ii + ii mod 2) 4 ltac:(lia)).
  split; [lia|]. split; [apply Z.div_pos; lia|].
  apply Z.lt_succ_r, Z.div_lt_upper_bound; lia.
Qed.

(** The division by 2 in the script is exact: its dividend is even. *)
Lemma index_even ii : ((ii + ii mod 2) mod 4) mod 2 = 0.
Proof.
  rewrite (Z.mod_mod_divide (ii + ii mod 2) 4 2) by (exists 2; reflexivity).
  rewrite Z.add_mod_idemp_r by lia.
  replace (ii + ii) with (ii * 2) by lia. apply Z.mod_mul. lia.
Qed.

(** For fewer than [2^21] iterations, the script's position is the
    in-process formula on the truncated hashes, reduced modulo [m]. *)
Lemma loc_low32 (g : t) hq ii :
  0 <= ii < 2 ^ 21 ->
  Lua.loc (args g hq) ii = location (low32 hq) ii mod m g.
Proof.
  intros Hii. unfold Lua.loc, location.
  change (Lua.ARGV (args g hq) 2) with (m g).
  rewrite (wrap64_small ii) by (unfold is_uint64, modulus64; lia).
  destruct (index_bounds ii) as [Ha Hx].
  unfold add64 at 2. rewrite mod4_of_wrap64.
  replace (3 + (ii + ii mod 2) mod 4 / 2)
    with ((2 + (ii + ii mod 2) mod 4 / 2) + 1) by lia.
  rewrite !h_args by lia.
  pose proof (low32_range hq (ii mod 2)).
  pose proof (low32_range hq (2 + (ii + ii mod 2) mod 4 / 2)).
  set (x := hget (low32 hq) (ii mod 2)) in *.
  set (y := hget (low32 hq) (2 + (ii + ii mod 2) mod 4 / 2)) in *.
  assert (0 <= ii * y < 2 ^ 53) by nia.
  unfold mul64, add64.
  rewrite (wrap64_small (ii * y)) by (unfold is_uint64, modulus64; lia).
  rewrite wrap64_small by (unfold is_uint64, modulus64; lia).
  reflexivity.
Qed.

(** In that range every number the script computes is an integer that a
    double represents exactly. *)
Lemma loc_exact (g : t) hq ii :
  0 <= ii < 2 ^ 21 -> 0 < m g <= 2 ^ 53 ->
  let x := Lua.h (args g hq) (ii mod 2 + 1) in
  let y := Lua.h (args g hq) (3 + ((ii + ii mod 2) mod 4) / 2) in
  Lua.exact x /\ Lua.exact y /\ Lua.exact (ii * y) /\
  Lua.exact (x + ii * y) /\ Lua.exact (m g) /\
  Lua.exact (Lua.loc (args g hq) ii).
Proof.
  intros Hii Hm x y.
  destruct (index_bounds ii) as [Ha Hx].
  assert (0 <= x < 2 ^ 32) as Hxr.
  { subst x. rewrite h_args by lia. apply low32_range. }
  assert (0 <= y < 2 ^ 32) as Hyr.
  { subst y.
    replace (3 + (ii + ii mod 2) mod 4 / 2)
      with ((2 + (ii + ii mod 2) mod 4 / 2) + 1) by lia.
    rewrite h_args by lia. apply low32_range. }
  assert (0 <= ii * y < 2 ^ 53 - 2 ^ 32) by nia.
  assert (0 <= Lua.loc (args g hq) ii < m g) as Hl.
  { unfold Lua.loc. change (Lua.ARGV (args g hq) 2) with (m g).
    apply Z.mod_pos_bound. lia. }
  unfold Lua.exact. repeat split; lia.
Qed.

Lemma setAll_loop_In key argv n :
  forall ii d j,
    Lua.setAll_loop n ii key argv d key j = true <->
    d key j = true \/
    In j (map (fun t => Lua.loc argv (ii + Z.of_nat t)) (seq 0 n)).
Proof.
  induction n as [|n IH]; intros ii d j.
  - simpl. tauto.
  - rewrite LocalBloomFacts.map_seq_S. cbn [Lua.setAll_loop In].
    rewrite IH, Z.add_0_r. unfold Lua.setbit at 1.
    rewrite String.eqb_refl. cbn [andb].
    assert (map (fun t => Lua.loc argv (ii + 1 + Z.of_nat t)) (seq 0 n)
            = map (fun t => Lua.loc argv (ii + Z.of_nat (S t))) (seq 0 n))
      as ->.
    { apply map_ext. intros t. f_equal. lia. }
    destruct (Z.eqb_spec j (Lua.loc argv ii)) as [->|Hne]; [tauto|].
    split; intros [H|H]; auto. destruct H as [H|H]; [congruence | auto].
Qed.

(** The script of [SetAll] turns on exactly the bits at [positions]. *)
Lemma setAll_sets_positions key argv d j :
  snd (Lua.run Redis.luaSetAll key argv d) key j = true <->
  d key j = true \/ In j (Lua.positions argv).
Proof. unfold Lua.run, Lua.positions. cbn [snd]. apply setAll_loop_In. Qed.

(** On hashes that fit 32 bits the truncation does nothing. *)
Lemma low32_small hq :
  0 <= h0 hq < 2 ^ 32 -> 0 <= h1 hq < 2 ^ 32 ->
  0 <= h2 hq < 2 ^ 32 -> 0 <= h3 hq < 2 ^ 32 -> low32 hq = hq.
Proof.
  intros. unfold low32. rewrite !wrap32_small by assumption.
  now destruct hq.
Qed.

Lemma positions_low32 (g : t) (l : LocalBloom.t) hq :
  LocalBloom.wf l ->
  LocalBloom.k l = k g -> LocalBloom.M l = m g -> k g <= 2 ^ 21 ->
  positions g hq = LocalBloom.positions l (low32 hq).
Proof.
  intros Hwf Hk Hm Hk21.
  unfold positions, Lua.positions, LocalBloom.positions.
  change (Lua.ARGV (args g hq) 1) with (k g). rewrite Hk.
  apply map_ext_in. intros i Hi. apply in_seq in Hi.
  rewrite LocalBloomFacts.loc_eq, Hm by assumption.
  apply loc_low32.
  destruct Hwf as ([Hk0 _] & _). lia.
Qed.

End LuaFacts.

(** ** The go-redis backend *)

Module GoredisBloomFacts.

Import GoredisBloom.

Lemma fails_with_client (l : t) c w :
  client l = Some c -> fails_always l ->
  fails_always (with_client l (Redis.update c w)).
Proof. unfold fails_always. intros ->. simpl. auto. Qed.

Lemma SetAll_fails hq (l : t) :
  fails_always l -> fails_always (snd (SetAll hq l)).
Proof.
  intros Hf. unfold SetAll. destruct (client l) as [c|] eqn:Ec; [|exact Hf].
  destruct (Redis.Run c _ _ _ _) as [[d e] w].
  destruct e as [e|]; [destruct (negb _)|]; simpl;
    now apply fails_with_client.
Qed.

Lemma ClearAll_fails (l : t) :
  fails_always l -> fails_always (snd (ClearAll l)).
Proof.
  intros Hf. unfold ClearAll. destruct (client l) as [c|] eqn:Ec; [|exact Hf].
  destruct (Redis.Del c _ _) as [e w]. simpl. now apply fails_with_client.
Qed.

(** On such a backend [TestAll] answers [false] with an error. *)
Lemma TestAll_fails hq (l : t) :
  fails_always l ->
  exists e l', TestAll hq l = (false, Some e, l') /\ fails_always l'.
Proof.
  intros Hf. unfold TestAll. destruct (client l) as [c|] eqn:Ec.
  - pose proof Hf as Hf'. unfold fails_always in Hf'. rewrite Ec in Hf'.
    destruct (Hf' Redis.luaTestAll [key l] (args l hq) (Redis.conn c))
      as [e He].
    destruct (Redis.Run c _ _ _ _) as [[d e'] w]. simpl in He. subst e'.
    exists e, (with_client l (Redis.update c w)).
    split; [reflexivity | now apply fails_with_client].
  - exists ErrNoRedis, l. split; [reflexivity | exact Hf].
Qed.

(** On a reachable server: the nil reply of [setAllStr] is not an error
    for [SetAll], and what was set is found. *)
Example server_roundtrip :
  let l := mk 3 100 "bloom" (Some (server_client (fun _ _ => false))) in
  let hq := mkQuad 4294967296 8589934599 3 4 in
  fst (SetAll hq l) = None /\
  fst (TestAll hq l) = (false, None) /\
  fst (TestAll hq (snd (SetAll hq l))) = (true, None) /\
  fst (TestAddAll hq l) = (false, None) /\
  fst (TestAddAll hq (snd (TestAddAll hq l))) = (true, None) /\
  fst (TestAll hq (snd (ClearAll (snd (SetAll hq l))))) = (false, None).
Proof. repeat split. Qed.

End GoredisBloomFacts.

Section EstimateFacts.

Variable sum256 : list Byte.byte -> Z * Z * Z * Z.

Import GoredisBloomFacts.

Abbreviation remote l := (NewBloom (GoredisBloom.bitmap l)).

Lemma Add_remote data (l : GoredisBloom.t) :
  snd (Add sum256 data (remote l))
  = remote (snd (GoredisBloom.SetAll (baseHashes sum256 data) l)).
Proof.
  unfold Add. cbn.
  now destruct (GoredisBloom.SetAll (baseHashes sum256 data) l).
Qed.

Lemma ClearAll_remote (l : GoredisBloom.t) :
  snd (ClearAll (remote l)) = remote (snd (GoredisBloom.ClearAll l)).
Proof. unfold ClearAll. cbn. now destruct (GoredisBloom.ClearAll l). Qed.

Lemma Test_remote data (l : GoredisBloom.t) :
  Test sum256 data (remote l)
  = (fst (GoredisBloom.TestAll (baseHashes sum256 data) l),
     remote (snd (GoredisBloom.TestAll (baseHashes sum256 data) l))).
Proof.
  unfold Test. cbn.
  now destruct (GoredisBloom.TestAll (baseHashes sum256 data) l) as [[r e] s].
Qed.

(** The insertion phase leaves a failing backend failing. *)
Lemma insert_phase_fails order1 :
  forall l, GoredisBloom.fails_always l ->
    exists l', insert_phase sum256 order1 (remote l) = remote l' /\
               GoredisBloom.fails_always l'.
Proof.
  unfold insert_phase.
  induction order1 as [|ii order1 IH]; intros l Hf; simpl.
  - now exists l.
  - rewrite Add_remote. apply IH. now apply SetAll_fails.
Qed.

(** The test phase counts nothing on a failing backend. *)
Lemma test_phase_fails n order2 :
  forall fp l, GoredisBloom.fails_always l ->
    exists l', test_phase sum256 n order2 fp (remote l) = (fp, remote l') /\
               GoredisBloom.fails_always l'.
Proof.
  unfold test_phase.
  induction order2 as [|ii order2 IH]; intros fp l Hf; simpl.
  - now exists l.
  - rewrite Test_remote.
    destruct (TestAll_fails
                (baseHashes sum256
                   (PutUint32 (wrap32 (wrap32 (ii + wrap32 n) + 1)))) l Hf)
      as (e & l' & -> & Hf').
    simpl. now apply IH.
Qed.

(** With no client nothing changes at all. *)
Lemma insert_phase_nil order1 (l : GoredisBloom.t) :
  GoredisBloom.client l = None ->
  insert_phase sum256 order1 (remote l) = remote l.
Proof.
  intros Hc. unfold insert_phase.
  induction order1 as [|ii order1 IH]; simpl; [reflexivity|].
  rewrite Add_remote. unfold GoredisBloom.SetAll. rewrite Hc. exact IH.
Qed.

Lemma test_phase_nil n order2 (l : GoredisBloom.t) :
  GoredisBloom.client l = None ->
  forall fp, test_phase sum256 n order2 fp (remote l) = (fp, remote l).
Proof.
  intros Hc. unfold test_phase.
  induction order2 as [|ii order2 IH]; intros fp; simpl; [reflexivity|].
  rewrite Test_remote. unfold GoredisBloom.TestAll. rewrite Hc. simpl.
  apply IH.
Qed.

End EstimateFacts.

(** * The specification's claims *)

(** ** Location scheme *)

(** C2. For every hash quadruple [h] and index [i] in [[0, k)], [location]
    returns [h[i mod 2] + i * h[2 + ((i + (i mod 2)) mod 4) / 2]] in
    unsigned 64-bit arithmetic, and the bit index the in-process backend
    uses against its [m]-bit array is that value modulo [m]. *)
Theorem location_formula (h : HashQuad) (l : LocalBloom.t) (i : Z) :
  LocalBloom.wf l -> 0 <= i < LocalBloom.k l ->
  location h i = spec_location h i /\
  is_uint64 (location h i) /\
  LocalBloom.loc l h i = spec_location h i mod LocalBloom.M l.
Proof.
  intros Hwf Hi.
  assert (is_uint64 i) as Hu.
  { destruct Hwf as ([_ Hk] & _). unfold is_uint64 in *. lia. }
  split; [now apply location_spec_location|].
  split; [apply location_range|].
  rewrite <- location_spec_location by assumption.
  now apply LocalBloomFacts.loc_eq.
Qed.

Lemma location_formula_witness :
  let h := mkQuad 18446744073709551615 7 18446744073709551614 5 in
  let l := LocalBloom.mk 4 (BitSet.New 1000) in
  location h 3 = spec_location h 3 /\
  is_uint64 (location h 3) /\
  LocalBloom.loc l h 3 = spec_location h 3 mod LocalBloom.M l.
Proof.
  intros h l. apply (location_formula h l 3).
  - apply (LocalBloomFacts.local_wf_New 1000 4).
    + unfold BitSet.maxLen, BitSet.Cap, BitSet.wordSize. lia.
    + unfold is_uint64, modulus64. lia.
  - simpl. lia.
Defined.

(** ** In-process backend *)

(** C5. On every state of the in-process backend, [TestAddAll(h)] returns
    what [TestAll(h)] returns on that state and leaves the bit array as
    [SetAll(h)] leaves it. *)
Theorem TestAddAll_is_TestAll_then_SetAll (h : HashQuad) (l : LocalBloom.t) :
  LocalBloom.wf l ->
  LocalBloom.TestAddAll h l
  = (fst (fst (LocalBloom.TestAll h l)), None, snd (LocalBloom.SetAll h l)).
Proof.
  intros Hwf. unfold LocalBloom.TestAddAll.
  now rewrite LocalBloomFacts.TestAddAll_loop_split.
Qed.

Lemma TestAddAll_is_TestAll_then_SetAll_witness :
  let h := mkQuad 10 20 30 40 in
  let l := snd (LocalBloom.SetAll (mkQuad 10 3 30 40)
                  (LocalBloom.mk 3 (BitSet.New 100))) in
  LocalBloom.TestAddAll h l
  = (fst (fst (LocalBloom.TestAll h l)), None, snd (LocalBloom.SetAll h l)).
Proof.
  intros h l. apply (TestAddAll_is_TestAll_then_SetAll h l).
  apply LocalBloomFacts.SetAll_loop_inv.
  apply (LocalBloomFacts.local_wf_New 100 3).
  - unfold BitSet.maxLen, BitSet.Cap, BitSet.wordSize. lia.
  - unfold is_uint64, modulus64. lia.
Defined.

(** C4. No false negatives: on an in-process filter, once a key has been
    passed to [Add] or [TestAndAdd], and whatever calls other than
    [ClearAll] follow, [Test] of that key returns [true] and no error. *)
Theorem no_false_negatives (sum256 : list Byte.byte -> Z * Z * Z * Z)
    (m k : Z) (before after : list op) (o : op) (key : list Byte.byte) :
  0 <= m <= BitSet.maxLen -> is_uint64 k ->
  inserts key o -> existsb is_clear after = false ->
  fst (Test sum256 key (run sum256 (before ++ o :: after) (NewLocal m k)))
  = (true, None).
Proof.
  intros Hm Hk Hins Hclear.
  pose proof (LocalBloomFacts.local_wf_New m k Hm Hk) as Hwf0.
  set (l0 := LocalBloom.mk (Uint.max 1 k) (BitSet.New (Uint.max 1 m))) in *.
  change (NewLocal m k) with (NewBloom (LocalBloom.bitmap l0)).
  rewrite run_local, Test_local. f_equal.
  unfold local_run. rewrite fold_left_app. simpl.
  fold (local_run sum256 before l0).
  set (l1 := local_run sum256 before l0).
  assert (LocalBloom.wf l1) as Hwf1 by now apply local_run_wf.
  set (l2 := local_step sum256 l1 o).
  assert (LocalBloom.wf l2) as Hwf2 by now apply local_step_wf.
  fold (local_run sum256 after l2).
  pose proof (local_run_le sum256 after l2 Hwf2 Hclear) as Hle.
  pose proof (found_after_insert sum256 key l1 o Hwf1 Hins) as Hfound.
  simpl in Hfound. fold l2 in Hfound.
  destruct Hle as (Hk' & Hrest). rewrite Hk'.
  apply (LocalBloomFacts.TestAll_loop_mono _ _ _ l2); try assumption.
  now split.
Qed.

Lemma no_false_negatives_witness :
  let sum256 := fun data : list Byte.byte =>
                  (Z.of_nat (List.length data), 7, 11, 13) in
  let key := [Byte.x42; Byte.x65] in
  fst (Test sum256 key
         (run sum256 ([OpAdd [Byte.x4a]; OpClearAll] ++ OpTestAndAdd key
                        :: [OpAdd [Byte.x45; Byte.x6d; Byte.x6d]; OpTest key])
            (NewLocal 1000 4)))
  = (true, None).
Proof.
  intros sum256 key.
  apply (no_false_negatives sum256 1000 4).
  - unfold BitSet.maxLen, BitSet.Cap, BitSet.wordSize. lia.
  - unfold is_uint64, modulus64. lia.
  - right. reflexivity.
  - reflexivity.
Defined.

(** C9. Clear resets membership: after [ClearAll] on an in-process filter
    every bit of the array is zero, and [Test] of any key, previously
    added or not, returns [false] (the filter tests [k >= 1] positions). *)
Theorem clear_resets_membership (sum256 : list Byte.byte -> Z * Z * Z * Z)
    (m k : Z) (ops : list op) (key : list Byte.byte) :
  0 <= m <= BitSet.maxLen -> is_uint64 k ->
  let f := snd (ClearAll (run sum256 ops (NewLocal m k))) in
  fst (Test sum256 key f) = (false, None) /\
  1 <= K f /\
  exists l, f = NewBloom (LocalBloom.bitmap l) /\
            forall j, BitSet.Test (LocalBloom.b l) j = false.
Proof.
  intros Hm Hk f.
  pose proof (LocalBloomFacts.local_wf_New m k Hm Hk) as Hwf0.
  set (l0 := LocalBloom.mk (Uint.max 1 k) (BitSet.New (Uint.max 1 m))) in *.
  change (NewLocal m k) with (NewBloom (LocalBloom.bitmap l0)) in f.
  subst f. rewrite run_local.
  set (l1 := local_run sum256 ops l0).
  change (snd (ClearAll (NewBloom (LocalBloom.bitmap l1))))
    with (NewBloom (LocalBloom.bitmap (snd (LocalBloom.ClearAll l1)))).
  set (l2 := snd (LocalBloom.ClearAll l1)).
  assert (LocalBloom.k l2 = Uint.max 1 k) as Hk2.
  { subst l2 l1. cbn [LocalBloom.ClearAll snd LocalBloom.k].
    now rewrite local_run_k. }
  assert (forall j, BitSet.Test (LocalBloom.b l2) j = false) as Hbits.
  { intros j. apply BitSetFacts.Test_ClearAll. }
  split; [|split].
  - rewrite Test_local, Hk2. f_equal.
    pose proof (max_ge_l 1 k).
    destruct (Z.to_nat (Uint.max 1 k)) as [|n] eqn:En; [lia|].
    simpl. now rewrite Hbits.
  - change (K (NewBloom (LocalBloom.bitmap l2))) with (LocalBloom.k l2).
    rewrite Hk2. apply max_ge_l.
  - now exists l2.
Qed.

Lemma clear_resets_membership_witness :
  let sum256 := fun data : list Byte.byte =>
                  (Z.of_nat (List.length data), 7, 11, 13) in
  let key := [Byte.x42; Byte.x65] in
  let f := snd (ClearAll (run sum256 [OpAdd key; OpTestAndAdd [Byte.x4a]]
                            (NewLocal 1000 4))) in
  fst (Test sum256 key f) = (false, None) /\
  1 <= K f /\
  exists l, f = NewBloom (LocalBloom.bitmap l) /\
            forall j, BitSet.Test (LocalBloom.b l) j = false.
Proof.
  intros sum256 key.
  apply (clear_resets_membership sum256 1000 4).
  - unfold BitSet.maxLen, BitSet.Cap, BitSet.wordSize. lia.
  - unfold is_uint64, modulus64. lia.
Defined.

(** ** Construction *)

(** C6. Degenerate sizing: a filter constructed with [m = 0] and [k = 0]
    has [K() = 1] and [Cap() = 1]; the constructors floor both parameters
    at 1 whatever they are given, and the estimator's results reach the
    constructor unfloored (they can be 0, the filter's parameters are 1). *)
Theorem degenerate_sizing :
  (K (NewLocal 0 0) = 1 /\ Cap (NewLocal 0 0) = 1) /\
  (forall key client,
      K (NewGoredis 0 0 key client) = 1 /\ Cap (NewGoredis 0 0 key client) = 1) /\
  (forall m k,
      K (NewLocal m k) = Uint.max 1 k /\ Cap (NewLocal m k) = Uint.max 1 m /\
      1 <= K (NewLocal m k) /\ 1 <= Cap (NewLocal m k)) /\
  (forall fl n p,
      let '(m, k) := EstimateParameters fl n p in
      K (NewLocalWithEstimates fl n p) = Uint.max 1 k /\
      Cap (NewLocalWithEstimates fl n p) = Uint.max 1 m) /\
  (forall fl n p,
      EstimateParameters fl n p = (0, 0) ->
      K (NewLocalWithEstimates fl n p) = 1 /\
      Cap (NewLocalWithEstimates fl n p) = 1).
Proof.
  split; [split; reflexivity|].
  split; [intros; split; reflexivity|].
  split.
  { intros m k. split; [reflexivity|]. split; [reflexivity|].
    split; apply max_ge_l. }
  split.
  { intros fl n p. unfold NewLocalWithEstimates.
    destruct (EstimateParameters fl n p) as [m k]. split; reflexivity. }
  intros fl n p H. unfold NewLocalWithEstimates. rewrite H.
  split; reflexivity.
Qed.

Lemma degenerate_sizing_witness :
  let fl := mkFloat64 Z (fun z => z) (fun _ => 0) Z.mul Z.div
              (fun z => z) Z.pow (fun z => z) in
  EstimateParameters fl 0 0 = (0, 0) /\
  K (NewLocalWithEstimates fl 0 0) = 1 /\
  Cap (NewLocalWithEstimates fl 0 0) = 1.
Proof.
  intros fl. split; [reflexivity|].
  apply (proj2 (proj2 (proj2 (proj2 degenerate_sizing))) fl 0 0).
  reflexivity.
Defined.

(** ** Remote backend: errors *)

(** C7. A go-redis filter constructed with a nil client is constructed all
    the same, and each of [SetAll], [TestAll], [TestAddAll] and [ClearAll]
    (hence [Add], [Test], [TestAndAdd] and the filter's [ClearAll]) returns
    [ErrNoRedis] and leaves everything as it was. *)
Theorem nil_client_fails (sum256 : list Byte.byte -> Z * Z * Z * Z)
    (m k : Z) (key : string) (h : HashQuad) (data : list Byte.byte) :
  let l := GoredisBloom.mk (Uint.max 1 k) (Uint.max 1 m) key None in
  let f := NewGoredis m k key None in
  f = NewBloom (GoredisBloom.bitmap l) /\
  GoredisBloom.SetAll h l = (Some ErrNoRedis, l) /\
  GoredisBloom.TestAll h l = (false, Some ErrNoRedis, l) /\
  GoredisBloom.TestAddAll h l = (false, Some ErrNoRedis, l) /\
  GoredisBloom.ClearAll l = (Some ErrNoRedis, l) /\
  Add sum256 data f = (Some ErrNoRedis, f) /\
  Test sum256 data f = (false, Some ErrNoRedis, f) /\
  TestAndAdd sum256 data f = (false, Some ErrNoRedis, f) /\
  ClearAll f = (Some ErrNoRedis, f).
Proof. intros l f. repeat split. Qed.

(** C8. In the go-redis binding, when the script run of [TestAll] or of
    [TestAddAll] comes back without error, the method returns
    [ErrDataType] with [false] if the reply is not an [int64], and
    otherwise no error and [true] exactly when the reply is 1.  (An error
    of the run is returned as it is, with [false].) *)
Theorem reply_type_checked (l : GoredisBloom.t) (c : Redis.UniversalClient)
    (h : HashQuad) :
  GoredisBloom.client l = Some c ->
  let checked (res : Redis.reply * err * Redis.W c) : bool * err :=
    let '(data, e, _) := res in
    match e with
    | Some e' => (false, Some e')
    | None =>
        match data with
        | Redis.Int64 ret => (ret =? 1, None)
        | _ => (false, Some ErrDataType)
        end
    end in
  fst (GoredisBloom.TestAll h l)
  = checked (Redis.Run c Redis.luaTestAll [GoredisBloom.key l]
               (GoredisBloom.args l h) (Redis.conn c)) /\
  fst (GoredisBloom.TestAddAll h l)
  = checked (Redis.Run c Redis.luaSetAddAll [GoredisBloom.key l]
               (GoredisBloom.args l h) (Redis.conn c)).
Proof.
  intros Hc checked. unfold GoredisBloom.TestAll, GoredisBloom.TestAddAll.
  rewrite Hc. split.
  - destruct (Redis.Run c Redis.luaTestAll _ _ _) as [[d e] w].
    subst checked. cbn [fst GoredisBloom.decode].
    destruct e as [e|]; [reflexivity|].
    destruct d as [|ret| |]; try reflexivity.
    unfold GoredisBloom.decode. now destruct (ret =? 1).
  - destruct (Redis.Run c Redis.luaSetAddAll _ _ _) as [[d e] w].
    subst checked. cbn [fst GoredisBloom.decode].
    destruct e as [e|]; [reflexivity|].
    destruct d as [|ret| |]; try reflexivity.
    unfold GoredisBloom.decode. now destruct (ret =? 1).
Qed.

Lemma reply_type_checked_witness :
  let c := Redis.mk unit tt
             (fun s _ _ w =>
                match s with
                | Redis.luaTestAll => (Redis.Str "1", None, w)
                | _ => (Redis.Int64 1, None, w)
                end)
             (fun _ w => (None, w)) in
  let l := GoredisBloom.mk 3 100 "bloom" (Some c) in
  let h := mkQuad 1 2 3 4 in
  fst (GoredisBloom.TestAll h l) = (false, Some ErrDataType) /\
  fst (GoredisBloom.TestAddAll h l) = (true, None).
Proof.
  intros c l h.
  apply (reply_type_checked l c h). reflexivity.
Defined.

(** C10. [EstimateFalsePositiveRate] drops every error of the calls it
    makes: on a go-redis filter whose backend cannot succeed (no client,
    or a client every script run of which fails) it completes, in whatever
    order its goroutines run, and returns the rate 0.0; with no client the
    filter is returned as it was. *)
Theorem estimate_hides_errors (sum256 : list Byte.byte -> Z * Z * Z * Z)
    (order1 order2 : list Z) (n : Z) (l : GoredisBloom.t) :
  GoredisBloom.fails_always l ->
  let f := NewBloom (GoredisBloom.bitmap l) in
  fst (EstimateFalsePositiveRate sum256 order1 order2 n f) = 0%float /\
  match GoredisBloom.client l with
  | None => snd (EstimateFalsePositiveRate sum256 order1 order2 n f) = f
  | Some _ => True
  end.
Proof.
  intros Hf f. split.
  - unfold EstimateFalsePositiveRate. subst f.
    destruct (ClearAll (NewBloom (GoredisBloom.bitmap l))) as [e0 f0] eqn:E0.
    assert (f0 = snd (ClearAll (NewBloom (GoredisBloom.bitmap l)))) as ->
      by now rewrite E0.
    rewrite ClearAll_remote.
    destruct (insert_phase_fails sum256 order1 _
                (GoredisBloomFacts.ClearAll_fails l Hf)) as (l1 & -> & Hf1).
    destruct (test_phase_fails sum256 n order2 0 l1 Hf1) as (l2 & -> & Hf2).
    destruct (ClearAll (NewBloom (GoredisBloom.bitmap l2))).
    reflexivity.
  - destruct (GoredisBloom.client l) eqn:Ec; [exact I|].
    unfold EstimateFalsePositiveRate. subst f.
    assert (ClearAll (NewBloom (GoredisBloom.bitmap l))
            = (Some ErrNoRedis, NewBloom (GoredisBloom.bitmap l))) as Hclr.
    { unfold ClearAll. cbn. unfold GoredisBloom.ClearAll. now rewrite Ec. }
    rewrite Hclr, insert_phase_nil, test_phase_nil, Hclr by assumption.
    reflexivity.
Qed.

Lemma estimate_hides_errors_witness :
  let sum256 := fun data : list Byte.byte =>
                  (Z.of_nat (List.length data), 7, 11, 13) in
  let l := GoredisBloom.mk 5 6235 "test:123" None in
  let f := NewBloom (GoredisBloom.bitmap l) in
  let order2 := rev (map Z.of_nat (seq 0 (Z.to_nat rounds))) in
  fst (EstimateFalsePositiveRate sum256 [1; 0; 2] order2 3 f) = 0%float /\
  snd (EstimateFalsePositiveRate sum256 [1; 0; 2] order2 3 f) = f.
Proof.
  intros sum256 l f order2.
  apply (estimate_hides_errors sum256 [1; 0; 2] order2 3 l).
  exact I.
Defined.

(** ** Remote backend: bit positions *)

(** The two backends agree on every hash quadruple whose four values fit
    32 bits. *)
Lemma goredis_agrees_on_32bit_hashes (m k : Z) (key : string)
    (client : option Redis.UniversalClient) (h : HashQuad) :
  0 <= m <= 2 ^ 53 -> 0 <= k <= 2 ^ 21 ->
  0 <= h0 h < 2 ^ 32 -> 0 <= h1 h < 2 ^ 32 ->
  0 <= h2 h < 2 ^ 32 -> 0 <= h3 h < 2 ^ 32 ->
  GoredisBloom.positions
    (GoredisBloom.mk (Uint.max 1 k) (Uint.max 1 m) key client) h
  = LocalBloom.positions
      (LocalBloom.mk (Uint.max 1 k) (BitSet.New (Uint.max 1 m))) h.
Proof.
  intros Hm Hk H0 H1 H2 H3.
  rewrite <- (LuaFacts.low32_small h H0 H1 H2 H3) at 2.
  apply LuaFacts.positions_low32; try reflexivity.
  - apply LocalBloomFacts.local_wf_New.
    + unfold BitSet.maxLen, BitSet.Cap, BitSet.wordSize. lia.
    + unfold is_uint64, modulus64. lia.
  - cbn [GoredisBloom.k]. unfold Uint.max. destruct (Z.ltb_spec k 1); lia.
Qed.

(** C1, as the code has it.  The go-redis backend sends the scripts only
    the low 32 bits of each of the four hash values, and the scripts add
    and multiply without wrapping at [2^64].  For the same [k <= 2^21] and
    [m <= 2^53] (the range in which the scripts' doubles are exact), the
    positions the scripts derive for [h] are the positions the in-process
    backend derives for the low 32 bits of [h]. *)
Theorem goredis_positions_from_low32 (m k : Z) (key : string)
    (client : option Redis.UniversalClient) (h : HashQuad) :
  0 <= m <= 2 ^ 53 -> 0 <= k <= 2 ^ 21 ->
  GoredisBloom.positions
    (GoredisBloom.mk (Uint.max 1 k) (Uint.max 1 m) key client) h
  = LocalBloom.positions
      (LocalBloom.mk (Uint.max 1 k) (BitSet.New (Uint.max 1 m)))
      (GoredisBloom.low32 h).
Proof.
  intros Hm Hk.
  apply LuaFacts.positions_low32; try reflexivity.
  - apply LocalBloomFacts.local_wf_New.
    + unfold BitSet.maxLen, BitSet.Cap, BitSet.wordSize. lia.
    + unfold is_uint64, modulus64. lia.
  - cbn [GoredisBloom.k]. unfold Uint.max. destruct (Z.ltb_spec k 1); lia.
Qed.

Lemma goredis_positions_from_low32_witness :
  let h := mkQuad 4294967296 8589934599 12884901899 17179869197 in
  GoredisBloom.positions (GoredisBloom.mk (Uint.max 1 4) (Uint.max 1 1000)
                            "test:123" None) h
  = LocalBloom.positions
      (LocalBloom.mk (Uint.max 1 4) (BitSet.New (Uint.max 1 1000)))
      (GoredisBloom.low32 h).
Proof.
  intros h.
  apply (goredis_positions_from_low32 1000 4 "test:123" None h); lia.
Defined.

(** C1, as stated, fails: with [h = (2^32, 0, 0, 0)], [k = 1] and [m = 3]
    the in-process backend derives position 1 ([2^32 mod 3]) and sets that
    bit, the script derives position 0 ([uint32(2^32) = 0]) and sets that
    one. *)
Lemma goredis_positions_differ :
  let h := mkQuad 4294967296 0 0 0 in
  let l := LocalBloom.mk 1 (BitSet.New 3) in
  let g := GoredisBloom.mk 1 3 "bloom" None in
  let l' := snd (LocalBloom.SetAll h l) in
  let d' := snd (Lua.run Redis.luaSetAll "bloom" (GoredisBloom.args g h)
                   (fun _ _ => false)) in
  LocalBloom.positions l h = [1] /\
  GoredisBloom.positions g h = [0] /\
  GoredisBloom.positions g h <> LocalBloom.positions l h /\
  (BitSet.Test (LocalBloom.b l') 0 = false /\
   BitSet.Test (LocalBloom.b l') 1 = true) /\
  (d' "bloom"%string 0 = true /\ d' "bloom"%string 1 = false).
Proof.
  intros h l g l' d'.
  assert (LocalBloom.positions l h = [1]) as Hl by reflexivity.
  assert (GoredisBloom.positions g h = [0]) as Hg by reflexivity.
  repeat split; try assumption; try reflexivity.
  rewrite Hl, Hg. discriminate.
Qed.

(** * Further properties of the code *)

(** ** In-process backend: what the loops do to the bits *)

Module LocalBloomMore.

Import LocalBloom BitSetFacts LocalBloomFacts.

(** Two settings of bits commute, down to the representation. *)
Lemma Set'_comm (v : BitSet.t) p q :
  BitSet.wf v -> BitSet.valid v p -> BitSet.valid v q ->
  BitSet.Set' (BitSet.Set' v p) q = BitSet.Set' (BitSet.Set' v q) p.
Proof.
  intros Hwf Hp Hq.
  assert (BitSet.valid (BitSet.Set' v p) q) as Hq' by now apply valid_Set'.
  assert (BitSet.valid (BitSet.Set' v q) p) as Hp' by now apply valid_Set'.
  unfold BitSet.Set' at 1 3.
  rewrite (extendSetMaybe_valid _ _ Hq'), (extendSetMaybe_valid _ _ Hp').
  rewrite !length_Set' by assumption. f_equal.
  unfold BitSet.Set'. rewrite !extendSetMaybe_valid by assumption.
  cbn [BitSet.set].
  destruct (decide (BitSet.wordIndex q = BitSet.wordIndex p)) as [E|E].
  - rewrite E, !list_alter_alter_eq. apply list_alter_ext; [|reflexivity].
    intros w _. unfold compose.
    now rewrite <- !Z.lor_assoc, (Z.lor_comm (BitSet.bitMask p)).
  - now apply list_alter_alter_ne.
Qed.

Lemma set1_comm (l : t) p q :
  wf l -> BitSet.valid (b l) p -> BitSet.valid (b l) q ->
  set1 (set1 l p) q = set1 (set1 l q) p.
Proof.
  intros (_ & Hb & _) Hp Hq. unfold set1. cbn [k b]. f_equal.
  now apply Set'_comm.
Qed.

Lemma SetAll_loop_set1 h n :
  forall i l q, wf l -> BitSet.valid (b l) q ->
    SetAll_loop n i h (set1 l q) = set1 (SetAll_loop n i h l) q.
Proof.
  induction n as [|n IH]; intros i l q Hwf Hq; [reflexivity|].
  rewrite !SetAll_loop_S.
  pose proof (loc_valid l h i Hwf) as Hp.
  rewrite (loc_length l (set1 l q)) by now apply length_set1.
  rewrite set1_comm by assumption.
  apply IH; [now apply wf_set1|].
  unfold BitSet.valid. now rewrite length_set1.
Qed.

(** Two runs of the setting loop commute. *)
Lemma SetAll_loop_comm h h' n :
  forall n' i i' l, wf l ->
    SetAll_loop n i h (SetAll_loop n' i' h' l)
    = SetAll_loop n' i' h' (SetAll_loop n i h l).
Proof.
  intros n'. induction n' as [|n' IH]; intros i i' l Hwf; [reflexivity|].
  rewrite !SetAll_loop_S.
  pose proof (loc_valid l h' i' Hwf) as Hp.
  destruct (SetAll_loop_inv h n i l Hwf) as (Hwf1 & _ & Hlen).
  rewrite (loc_length l (SetAll_loop n i h l)) by assumption.
  rewrite <- SetAll_loop_set1 by assumption.
  apply IH. now apply wf_set1.
Qed.

(** A setting loop all of whose positions are already on changes
    nothing. *)
Lemma SetAll_loop_id h n :
  forall i l, wf l ->
    (forall j, visits n i h l j = true -> BitSet.Test (b l) j = true) ->
    SetAll_loop n i h l = l.
Proof.
  induction n as [|n IH]; intros i l Hwf H; [reflexivity|].
  rewrite SetAll_loop_S.
  assert (set1 l (loc l h i) = l) as ->.
  { unfold set1. rewrite Set'_of_set; [apply mk_eta | apply Hwf | |].
    - now apply loc_valid.
    - apply H. simpl. now rewrite Z.eqb_refl. }
  apply IH; [assumption|].
  intros j Hj. apply H. simpl. rewrite Hj. apply orb_true_r.
Qed.

Lemma TestAll_loop_forallb h n :
  forall i l,
    TestAll_loop n i h l
    = forallb (BitSet.Test (b l))
        (map (fun t => loc l h (i + Z.of_nat t)) (seq 0 n)).
Proof.
  induction n as [|n IH]; intros i l; [reflexivity|].
  rewrite map_seq_S. cbn [TestAll_loop forallb]. rewrite Z.add_0_r.
  destruct (BitSet.Test (b l) (loc l h i)); [|reflexivity].
  cbn [negb andb]. rewrite IH. f_equal.
  apply map_ext. intros t. f_equal. lia.
Qed.

(** The word count of the vector never changes. *)
Lemma words_set1 (l : t) p :
  BitSet.valid (b l) p ->
  List.length (BitSet.set (b (set1 l p))) = List.length (BitSet.set (b l)).
Proof.
  intros Hp. unfold set1, BitSet.Set'. cbn [b].
  rewrite extendSetMaybe_valid by assumption.
  cbn [BitSet.set]. apply length_alter.
Qed.

Lemma words_SetAll_loop h n :
  forall i l, wf l ->
    List.length (BitSet.set (b (SetAll_loop n i h l)))
    = List.length (BitSet.set (b l)).
Proof.
  induction n as [|n IH]; intros i l Hwf; [reflexivity|].
  rewrite SetAll_loop_S.
  pose proof (loc_valid l h i Hwf) as Hp.
  rewrite IH by now apply wf_set1. now apply words_set1.
Qed.

End LocalBloomMore.

(** X1. [SetAll] on the in-process backend reports no error, keeps [k]
    and the size, and turns on exactly the [k] bits at
    [location(h,i) mod m]: afterwards a bit is on iff it was on before or
    is one of these positions. *)
Theorem SetAll_sets_exactly_its_positions (h : HashQuad) (l : LocalBloom.t)
    (j : Z) :
  LocalBloom.wf l -> BitSet.valid (LocalBloom.b l) j ->
  let l' := snd (LocalBloom.SetAll h l) in
  fst (LocalBloom.SetAll h l) = None /\
  LocalBloom.K l' = LocalBloom.K l /\ LocalBloom.M l' = LocalBloom.M l /\
  (BitSet.Test (LocalBloom.b l') j = true <->
   BitSet.Test (LocalBloom.b l) j = true \/ In j (LocalBloom.positions l h)).
Proof.
  intros Hwf Hj l'. subst l'.
  destruct (LocalBloomFacts.SetAll_loop_inv h (Z.to_nat (LocalBloom.k l)) 0 l Hwf)
    as (_ & Hk & Hlen).
  split; [reflexivity|]. split; [exact Hk|]. split; [exact Hlen|].
  now apply LocalBloomFacts.SetAll_sets_positions.
Qed.

Lemma SetAll_sets_exactly_its_positions_witness :
  let h := mkQuad 10 20 30 40 in
  let l := LocalBloom.mk 3 (BitSet.New 100) in
  let l' := snd (LocalBloom.SetAll h l) in
  fst (LocalBloom.SetAll h l) = None /\
  LocalBloom.K l' = LocalBloom.K l /\ LocalBloom.M l' = LocalBloom.M l /\
  (BitSet.Test (LocalBloom.b l') 60 = true <->
   BitSet.Test (LocalBloom.b l) 60 = true \/ In 60 (LocalBloom.positions l h)).
Proof.
  intros h l.
  apply (SetAll_sets_exactly_its_positions h l 60).
  - apply (LocalBloomFacts.local_wf_New 100 3).
    + unfold BitSet.maxLen, BitSet.Cap, BitSet.wordSize. lia.
    + unfold is_uint64, modulus64. lia.
  - unfold BitSet.valid. simpl. lia.
Defined.

(** X2. [TestAll] on the in-process backend returns [true] exactly when
    every one of the [k] positions is on, reports no error and leaves the
    receiver as it was. *)
Theorem TestAll_checks_all_positions (h : HashQuad) (l : LocalBloom.t) :
  LocalBloom.TestAll h l
  = (forallb (BitSet.Test (LocalBloom.b l)) (LocalBloom.positions l h),
     None, l).
Proof.
  unfold LocalBloom.TestAll, LocalBloom.positions.
  now rewrite LocalBloomMore.TestAll_loop_forallb.
Qed.

(** X3. Every bit position the in-process backend computes lies inside
    the bit array, so [Set] never has to grow it and [Test] never looks
    beyond it. *)
Theorem positions_inside_array (h : HashQuad) (l : LocalBloom.t) :
  LocalBloom.wf l ->
  Forall (fun p => 0 <= p < LocalBloom.M l) (LocalBloom.positions l h).
Proof.
  intros Hwf. apply Forall_forall. intros p Hp.
  apply list_elem_of_In in Hp.
  unfold LocalBloom.positions in Hp. apply in_map_iff in Hp as (t & <- & _).
  apply (LocalBloomFacts.loc_valid l h _ Hwf).
Qed.

Lemma positions_inside_array_witness :
  let h := mkQuad 18446744073709551615 7 18446744073709551614 5 in
  let l := LocalBloom.mk 4 (BitSet.New 1000) in
  Forall (fun p => 0 <= p < LocalBloom.M l) (LocalBloom.positions l h).
Proof.
  intros h l. apply (positions_inside_array h l).
  apply (LocalBloomFacts.local_wf_New 1000 4).
  - unfold BitSet.maxLen, BitSet.Cap, BitSet.wordSize. lia.
  - unfold is_uint64, modulus64. lia.
Defined.

(** X4. [SetAll] is idempotent: setting the same hashes a second time
    changes nothing. *)
Theorem SetAll_idempotent (h : HashQuad) (l : LocalBloom.t) :
  LocalBloom.wf l ->
  LocalBloom.SetAll h (snd (LocalBloom.SetAll h l)) = LocalBloom.SetAll h l.
Proof.
  intros Hwf. unfold LocalBloom.SetAll. cbn [snd]. f_equal.
  set (n := Z.to_nat (LocalBloom.k l)).
  destruct (LocalBloomFacts.SetAll_loop_inv h n 0 l Hwf) as (Hwf' & Hk & Hlen).
  rewrite Hk. fold n.
  apply LocalBloomMore.SetAll_loop_id; [assumption|].
  intros j Hj.
  rewrite (LocalBloomFacts.visits_length l) in Hj by assumption.
  rewrite LocalBloomFacts.Test_SetAll_loop
    by eauto using LocalBloomFacts.visits_valid.
  rewrite Hj. apply orb_true_r.
Qed.

Lemma SetAll_idempotent_witness :
  let h := mkQuad 10 20 30 40 in
  let l := LocalBloom.mk 3 (BitSet.New 100) in
  LocalBloom.SetAll h (snd (LocalBloom.SetAll h l)) = LocalBloom.SetAll h l.
Proof.
  intros h l. apply (SetAll_idempotent h l).
  apply (LocalBloomFacts.local_wf_New 100 3).
  - unfold BitSet.maxLen, BitSet.Cap, BitSet.wordSize. lia.
  - unfold is_uint64, modulus64. lia.
Defined.

(** X5. The order of two [SetAll] calls does not matter: both orders
    leave the same bit array. *)
Theorem SetAll_commutes (h h' : HashQuad) (l : LocalBloom.t) :
  LocalBloom.wf l ->
  snd (LocalBloom.SetAll h (snd (LocalBloom.SetAll h' l)))
  = snd (LocalBloom.SetAll h' (snd (LocalBloom.SetAll h l))).
Proof.
  intros Hwf. unfold LocalBloom.SetAll. cbn [snd].
  set (n := Z.to_nat (LocalBloom.k l)).
  destruct (LocalBloomFacts.SetAll_loop_inv h n 0 l Hwf) as (_ & -> & _).
  destruct (LocalBloomFacts.SetAll_loop_inv h' n 0 l Hwf) as (_ & -> & _).
  fold n. now apply LocalBloomMore.SetAll_loop_comm.
Qed.

Lemma SetAll_commutes_witness :
  let h := mkQuad 10 20 30 40 in
  let h' := mkQuad 74 20 5 1 in
  let l := LocalBloom.mk 3 (BitSet.New 100) in
  snd (LocalBloom.SetAll h (snd (LocalBloom.SetAll h' l)))
  = snd (LocalBloom.SetAll h' (snd (LocalBloom.SetAll h l))).
Proof.
  intros h h' l. apply (SetAll_commutes h h' l).
  apply (LocalBloomFacts.local_wf_New 100 3).
  - unfold BitSet.maxLen, BitSet.Cap, BitSet.wordSize. lia.
  - unfold is_uint64, modulus64. lia.
Defined.

(** ** Histories on an in-process filter *)

Section LocalHistories.

Variable sum256 : list Byte.byte -> Z * Z * Z * Z.

Import LocalBloomFacts.

(** No call changes the length of the vector or its number of words. *)
Lemma local_step_shape (l : LocalBloom.t) o :
  LocalBloom.wf l ->
  BitSet.length (LocalBloom.b (local_step sum256 l o))
  = BitSet.length (LocalBloom.b l) /\
  List.length (BitSet.set (LocalBloom.b (local_step sum256 l o)))
  = List.length (BitSet.set (LocalBloom.b l)).
Proof.
  intros Hwf.
  assert (forall data,
             BitSet.length (LocalBloom.b (local_step sum256 l (OpAdd data)))
             = BitSet.length (LocalBloom.b l) /\
             List.length (BitSet.set (LocalBloom.b (local_step sum256 l (OpAdd data))))
             = List.length (BitSet.set (LocalBloom.b l))) as Hadd.
  { intros data. split.
    - apply SetAll_loop_inv, Hwf.
    - now apply LocalBloomMore.words_SetAll_loop. }
  destruct o as [data|data|data|].
  - apply Hadd.
  - now split.
  - rewrite local_step_TestAndAdd by assumption. apply Hadd.
  - split; [reflexivity|]. simpl. apply length_map.
Qed.

Lemma local_run_shape ops :
  forall l, LocalBloom.wf l ->
    BitSet.length (LocalBloom.b (local_run sum256 ops l))
    = BitSet.length (LocalBloom.b l) /\
    List.length (BitSet.set (LocalBloom.b (local_run sum256 ops l)))
    = List.length (BitSet.set (LocalBloom.b l)).
Proof.
  induction ops as [|o ops IH]; intros l Hwf; [now split|].
  unfold local_run in *. simpl.
  destruct (IH _ (local_step_wf sum256 l o Hwf)) as [-> ->].
  now apply local_step_shape.
Qed.

(** Clearing after any history gives back the vector [New] built. *)
Lemma clear_after_run_fresh m k ops :
  0 <= m <= BitSet.maxLen -> is_uint64 k ->
  snd (ClearAll (run sum256 ops (NewLocal m k))) = NewLocal m k.
Proof.
  intros Hm Hk.
  pose proof (local_wf_New m k Hm Hk) as Hwf0.
  unfold NewLocal at 1. cbv zeta. rewrite run_local.
  set (l0 := LocalBloom.mk (Uint.max 1 k) (BitSet.New (Uint.max 1 m))) in *.
  destruct (local_run_shape ops l0 Hwf0) as [Hlen Hwords].
  pose proof (local_run_k sum256 ops l0 Hwf0) as Hk'.
  set (l1 := local_run sum256 ops l0) in *.
  change (snd (ClearAll (NewBloom (LocalBloom.bitmap l1))))
    with (NewBloom (LocalBloom.bitmap (snd (LocalBloom.ClearAll l1)))).
  unfold NewLocal. cbv zeta. fold l0. do 2 f_equal.
  unfold LocalBloom.ClearAll, BitSet.ClearAll. cbn [snd].
  rewrite Hk', Hlen. subst l0. cbn [LocalBloom.k LocalBloom.b BitSet.length].
  unfold BitSet.New. do 2 f_equal.
  change (map (fun _ : Z => 0) (BitSet.set (LocalBloom.b l1)))
    with ((fun _ : Z => 0) <$> BitSet.set (LocalBloom.b l1)).
  rewrite (const_fmap (fun _ : Z => 0) _ 0) by reflexivity.
  rewrite Hwords. cbn [LocalBloom.b BitSet.New BitSet.set].
  now rewrite length_replicate.
Qed.

(** The two phases of [EstimateFalsePositiveRate] are histories. *)
Lemma insert_phase_run order1 f :
  insert_phase sum256 order1 f
  = run sum256 (map (fun ii => OpAdd (PutUint32 ii)) order1) f.
Proof.
  unfold insert_phase, run. revert f.
  induction order1 as [|ii order1 IH]; intros f; [reflexivity|].
  simpl. apply IH.
Qed.

Lemma test_phase_run n order2 :
  forall fp f,
    snd (test_phase sum256 n order2 fp f)
    = run sum256
        (map (fun ii => OpTest (PutUint32 (wrap32 (wrap32 (ii + wrap32 n) + 1))))
           order2) f.
Proof.
  unfold test_phase, run.
  induction order2 as [|ii order2 IH]; intros fp f; [reflexivity|].
  cbn [fold_left map].
  change (step sum256 f
            (OpTest (PutUint32 (wrap32 (wrap32 (ii + wrap32 n) + 1)))))
    with (snd (Test sum256 (PutUint32 (wrap32 (wrap32 (ii + wrap32 n) + 1))) f)).
  destruct (Test sum256 (PutUint32 (wrap32 (wrap32 (ii + wrap32 n) + 1))) f)
    as [[r e] f'].
  cbn [snd]. apply IH.
Qed.

Lemma run_app ops1 ops2 f :
  run sum256 (ops1 ++ ops2) f = run sum256 ops2 (run sum256 ops1 f).
Proof. unfold run. apply fold_left_app. Qed.

End LocalHistories.

(** X6. The parameters of an in-process filter are fixed at construction:
    after any history of calls [K()] is still [max(1,k)] and [Cap()] is
    still [max(1,m)]. *)
Theorem parameters_never_change (sum256 : list Byte.byte -> Z * Z * Z * Z)
    (m k : Z) (ops : list op) :
  0 <= m <= BitSet.maxLen -> is_uint64 k ->
  K (run sum256 ops (NewLocal m k)) = Uint.max 1 k /\
  Cap (run sum256 ops (NewLocal m k)) = Uint.max 1 m.
Proof.
  intros Hm Hk.
  pose proof (LocalBloomFacts.local_wf_New m k Hm Hk) as Hwf0.
  unfold NewLocal. cbv zeta. rewrite run_local.
  set (l0 := LocalBloom.mk (Uint.max 1 k) (BitSet.New (Uint.max 1 m))) in *.
  split.
  - change (LocalBloom.k (local_run sum256 ops l0) = Uint.max 1 k).
    now rewrite local_run_k.
  - change (BitSet.length (LocalBloom.b (local_run sum256 ops l0)) = Uint.max 1 m).
    now rewrite (proj1 (local_run_shape sum256 ops l0 Hwf0)).
Qed.

Lemma parameters_never_change_witness :
  let sum256 := fun data : list Byte.byte =>
                  (Z.of_nat (List.length data), 7, 11, 13) in
  let ops := [OpAdd [Byte.x4a]; OpTestAndAdd [Byte.x42; Byte.x65];
              OpClearAll; OpTest [Byte.x4a]] in
  K (run sum256 ops (NewLocal 0 9)) = Uint.max 1 9 /\
  Cap (run sum256 ops (NewLocal 0 9)) = Uint.max 1 0.
Proof.
  intros sum256 ops. apply (parameters_never_change sum256 0 9 ops).
  - unfold BitSet.maxLen, BitSet.Cap, BitSet.wordSize. lia.
  - unfold is_uint64, modulus64. lia.
Defined.

(** X7. [ClearAll] after any history puts an in-process filter back into
    exactly the state its constructor built, and that state finds no
    key. *)
Theorem ClearAll_restores_new_filter
    (sum256 : list Byte.byte -> Z * Z * Z * Z) (m k : Z) (ops : list op)
    (key : list Byte.byte) :
  0 <= m <= BitSet.maxLen -> is_uint64 k ->
  ClearAll (run sum256 ops (NewLocal m k)) = (None, NewLocal m k) /\
  fst (Test sum256 key (NewLocal m k)) = (false, None).
Proof.
  intros Hm Hk. split.
  - pose proof (clear_after_run_fresh sum256 m k ops Hm Hk) as Hsnd.
    assert (fst (ClearAll (run sum256 ops (NewLocal m k))) = None) as Hfst.
    { unfold NewLocal. cbv zeta. now rewrite run_local. }
    destruct (ClearAll (run sum256 ops (NewLocal m k))) as [e f'].
    cbn [fst snd] in *. now subst.
  - unfold NewLocal. cbv zeta. rewrite Test_local. f_equal.
    cbn [LocalBloom.k].
    pose proof (max_ge_l 1 k).
    destruct (Z.to_nat (Uint.max 1 k)) as [|n] eqn:En; [lia|].
    cbn [LocalBloom.TestAll_loop LocalBloom.b].
    now rewrite BitSetFacts.Test_New.
Qed.

Lemma ClearAll_restores_new_filter_witness :
  let sum256 := fun data : list Byte.byte =>
                  (Z.of_nat (List.length data), 7, 11, 13) in
  let ops := [OpAdd [Byte.x4a]; OpTestAndAdd [Byte.x42; Byte.x65]] in
  ClearAll (run sum256 ops (NewLocal 1000 4)) = (None, NewLocal 1000 4) /\
  fst (Test sum256 [Byte.x4a] (NewLocal 1000 4)) = (false, None).
Proof.
  intros sum256 ops.
  apply (ClearAll_restores_new_filter sum256 1000 4 ops [Byte.x4a]).
  - unfold BitSet.maxLen, BitSet.Cap, BitSet.wordSize. lia.
  - unfold is_uint64, modulus64. lia.
Defined.

(** X8. Positive answers are stable: on an in-process filter, a key that
    [Test] finds is still found after any further calls other than
    [ClearAll]. *)
Theorem positives_are_stable (sum256 : list Byte.byte -> Z * Z * Z * Z)
    (m k : Z) (before after : list op) (key : list Byte.byte) :
  0 <= m <= BitSet.maxLen -> is_uint64 k ->
  existsb is_clear after = false ->
  fst (Test sum256 key (run sum256 before (NewLocal m k))) = (true, None) ->
  fst (Test sum256 key (run sum256 (before ++ after) (NewLocal m k)))
  = (true, None).
Proof.
  intros Hm Hk Hclear Hfound.
  pose proof (LocalBloomFacts.local_wf_New m k Hm Hk) as Hwf0.
  unfold NewLocal in *. cbv zeta in *.
  set (l0 := LocalBloom.mk (Uint.max 1 k) (BitSet.New (Uint.max 1 m))) in *.
  rewrite run_app, !run_local, Test_local in *.
  set (l1 := local_run sum256 before l0) in *.
  assert (LocalBloom.wf l1) as Hwf1 by now apply local_run_wf.
  pose proof (local_run_le sum256 after l1 Hwf1 Hclear) as Hle.
  injection Hfound as Hfound. f_equal.
  destruct Hle as (Hk' & Hrest). rewrite Hk'.
  apply (LocalBloomFacts.TestAll_loop_mono _ _ _ l1); try assumption.
  now split.
Qed.

Lemma positives_are_stable_witness :
  let sum256 := fun data : list Byte.byte =>
                  (Z.of_nat (List.length data), 7, 11, 13) in
  let key := [Byte.x42; Byte.x65] in
  fst (Test sum256 key
         (run sum256 ([OpAdd key] ++ [OpAdd [Byte.x4a]; OpTestAndAdd [Byte.x45]])
            (NewLocal 1000 4)))
  = (true, None).
Proof.
  intros sum256 key.
  apply (positives_are_stable sum256 1000 4).
  - unfold BitSet.maxLen, BitSet.Cap, BitSet.wordSize. lia.
  - unfold is_uint64, modulus64. lia.
  - reflexivity.
  - reflexivity.
Defined.

(** X9. [EstimateFalsePositiveRate] is destructive: whatever the filter
    held and in whatever order its goroutines ran, it returns an
    in-process filter in the state its constructor built. *)
Theorem estimate_leaves_filter_empty
    (sum256 : list Byte.byte -> Z * Z * Z * Z) (m k n : Z)
    (ops : list op) (order1 order2 : list Z) :
  0 <= m <= BitSet.maxLen -> is_uint64 k ->
  snd (EstimateFalsePositiveRate sum256 order1 order2 n
         (run sum256 ops (NewLocal m k)))
  = NewLocal m k.
Proof.
  intros Hm Hk. unfold EstimateFalsePositiveRate.
  set (f := run sum256 ops (NewLocal m k)).
  destruct (ClearAll f) as [e0 f0] eqn:E0.
  assert (f0 = run sum256 (ops ++ [OpClearAll]) (NewLocal m k)) as Hf0.
  { rewrite run_app. subst f. simpl. unfold step. now rewrite E0. }
  rewrite insert_phase_run.
  destruct (test_phase sum256 n order2 0 _) as [fp f2] eqn:E2.
  assert (f2 = snd (test_phase sum256 n order2 0
                      (run sum256 (map (fun ii => OpAdd (PutUint32 ii)) order1) f0)))
    as Hf2 by now rewrite E2.
  rewrite test_phase_run, Hf0, <- !run_app in Hf2.
  destruct (ClearAll f2) as [e3 f3] eqn:E3. cbn [snd].
  assert (f3 = snd (ClearAll f2)) as -> by now rewrite E3.
  rewrite Hf2. now apply clear_after_run_fresh.
Qed.

Lemma estimate_leaves_filter_empty_witness :
  let sum256 := fun data : list Byte.byte =>
                  (Z.of_nat (List.length data), 7, 11, 13) in
  snd (EstimateFalsePositiveRate sum256 [2; 0; 1] [1; 0] 3
         (run sum256 [OpAdd [Byte.x4a]] (NewLocal 1000 4)))
  = NewLocal 1000 4.
Proof.
  intros sum256.
  apply (estimate_leaves_filter_empty sum256 1000 4 3).
  - unfold BitSet.maxLen, BitSet.Cap, BitSet.wordSize. lia.
  - unfold is_uint64, modulus64. lia.
Defined.

(** ** The scripts on the server's keyspace *)

Module LuaMore.

Import LocalBloomFacts.

(** The reading loop only depends on the bits of its key. *)
Lemma testAll_loop_ext key argv n :
  forall ii d d',
    (forall o, d key o = d' key o) ->
    Lua.testAll_loop n ii key argv d = Lua.testAll_loop n ii key argv d'.
Proof.
  induction n as [|n IH]; intros ii d d' H; [reflexivity|].
  cbn [Lua.testAll_loop]. unfold Lua.getbit. rewrite H.
  destruct (d' key (Lua.loc argv ii)); [|reflexivity].
  now apply IH.
Qed.

Lemma testAll_loop_forallb key argv n :
  forall ii d,
    Lua.testAll_loop n ii key argv d
    = if forallb (d key)
           (map (fun t => Lua.loc argv (ii + Z.of_nat t)) (seq 0 n))
      then 1 else 0.
Proof.
  induction n as [|n IH]; intros ii d; [reflexivity|].
  rewrite map_seq_S. cbn [Lua.testAll_loop forallb]. rewrite Z.add_0_r.
  unfold Lua.getbit.
  destruct (d key (Lua.loc argv ii)); [|reflexivity].
  cbn [andb Z.eqb]. rewrite IH.
  assert (map (fun t => Lua.loc argv (ii + 1 + Z.of_nat t)) (seq 0 n)
          = map (fun t => Lua.loc argv (ii + Z.of_nat (S t))) (seq 0 n))
    as ->; [|reflexivity].
  apply map_ext. intros t. f_equal. lia.
Qed.

Lemma setbit_set (d : Lua.db) key p :
  d key p = true -> forall o, Lua.setbit d key p key o = d key o.
Proof.
  intros H o. unfold Lua.setbit. rewrite String.eqb_refl. cbn [andb].
  now destruct (Z.eqb_spec o p) as [->|].
Qed.

(** The test-and-set loop: the answer of the reading loop on the
    keyspace it started from, the keyspace of the setting loop. *)
Lemma setAddAll_loop_split key argv n :
  forall ii present d,
    Lua.setAddAll_loop n ii key argv present d
    = (if Lua.testAll_loop n ii key argv d =? 0 then 0 else present,
       Lua.setAll_loop n ii key argv d).
Proof.
  induction n as [|n IH]; intros ii present d; [reflexivity|].
  cbn [Lua.setAddAll_loop Lua.setAll_loop Lua.testAll_loop]. rewrite IH.
  f_equal. unfold Lua.getbit.
  destruct (d key (Lua.loc argv ii)) eqn:E; cbn [Z.eqb].
  - now rewrite (testAll_loop_ext key argv n (ii + 1) _ d (setbit_set d key _ E)).
  - now destruct (Lua.testAll_loop _ _ _ _ _ =? 0).
Qed.

Lemma testAll_loop_01 key argv n :
  forall ii d,
    Lua.testAll_loop n ii key argv d = 0 \/ Lua.testAll_loop n ii key argv d = 1.
Proof.
  intros ii d. rewrite testAll_loop_forallb.
  destruct (forallb _ _); auto.
Qed.

Lemma setAddAll_keyspace key argv d :
  snd (Lua.run Redis.luaSetAddAll key argv d)
  = snd (Lua.run Redis.luaSetAll key argv d).
Proof. unfold Lua.run. now rewrite setAddAll_loop_split. Qed.

Lemma del_key (d : Lua.db) key o : Lua.del d key key o = false.
Proof. unfold Lua.del. now rewrite String.eqb_refl. Qed.

End LuaMore.

(** X10. The test-and-set script is the test script followed by the set
    script in one run: it replies what [testAllStr] replies on the
    keyspace it starts from and leaves the keyspace [setAllStr] leaves. *)
Theorem setAddAll_script_is_test_then_set (key : string) (argv : list Z)
    (d : Lua.db) :
  Lua.run Redis.luaSetAddAll key argv d
  = (fst (Lua.run Redis.luaTestAll key argv d),
     snd (Lua.run Redis.luaSetAll key argv d)).
Proof.
  unfold Lua.run. rewrite LuaMore.setAddAll_loop_split. cbn [fst snd].
  do 2 f_equal.
  destruct (LuaMore.testAll_loop_01 key argv (Z.to_nat (Lua.ARGV argv 1)) 0 d)
    as [-> | ->]; reflexivity.
Qed.

(** X11. For [k <= 2^21] and [m <= 2^32] the arithmetic of the scripts is
    exact although Lua computes in doubles: with the hashes cut to 32
    bits, every operand and intermediate result is an integer of absolute
    value at most [2^53], and every offset handed to [setbit]/[getbit]
    lies in [[0, m)]. *)
Theorem script_arithmetic_is_exact (m k : Z) (key : string)
    (client : option Redis.UniversalClient) (h : HashQuad) (ii : Z) :
  0 <= m <= 2 ^ 32 -> 0 <= k <= 2 ^ 21 ->
  0 <= ii < Uint.max 1 k ->
  let g := GoredisBloom.mk (Uint.max 1 k) (Uint.max 1 m) key client in
  let x := Lua.h (GoredisBloom.args g h) (ii mod 2 + 1) in
  let y := Lua.h (GoredisBloom.args g h) (3 + ((ii + ii mod 2) mod 4) / 2) in
  Lua.exact x /\ Lua.exact y /\ Lua.exact (ii * y) /\ Lua.exact (x + ii * y) /\
  ((ii + ii mod 2) mod 4) mod 2 = 0 /\
  0 <= Lua.loc (GoredisBloom.args g h) ii < Uint.max 1 m.
Proof.
  intros Hm Hk Hii g x y.
  assert (Uint.max 1 k <= 2 ^ 21) as Hk'.
  { unfold Uint.max. destruct (Z.ltb_spec k 1); lia. }
  assert (0 < Uint.max 1 m <= 2 ^ 53) as Hm'.
  { unfold Uint.max. destruct (Z.ltb_spec m 1); lia. }
  destruct (LuaFacts.loc_exact g h ii) as (Hx & Hy & Hxy & Hs & _ & _);
    [lia | exact Hm' |].
  repeat split; try assumption.
  - apply LuaFacts.index_even.
  - apply Z.mod_pos_bound. apply Hm'.
  - apply Z.mod_pos_bound. apply Hm'.
Qed.

Lemma script_arithmetic_is_exact_witness :
  let h := mkQuad 18446744073709551615 7 18446744073709551614 5 in
  let g := GoredisBloom.mk (Uint.max 1 4) (Uint.max 1 1000) "test:123" None in
  let x := Lua.h (GoredisBloom.args g h) (3 mod 2 + 1) in
  let y := Lua.h (GoredisBloom.args g h) (3 + ((3 + 3 mod 2) mod 4) / 2) in
  Lua.exact x /\ Lua.exact y /\ Lua.exact (3 * y) /\ Lua.exact (x + 3 * y) /\
  ((3 + 3 mod 2) mod 4) mod 2 = 0 /\
  0 <= Lua.loc (GoredisBloom.args g h) 3 < Uint.max 1 1000.
Proof.
  intros h.
  apply (script_arithmetic_is_exact 1000 4 "test:123" None h 3).
  - lia.
  - lia.
  - unfold Uint.max. simpl. lia.
Defined.

(** ** The go-redis backend on a reachable server *)

Section ServerFacts.

Variable sum256 : list Byte.byte -> Z * Z * Z * Z.

Import LocalBloomFacts.

Abbreviation served g d := (NewBloom (GoredisBloom.bitmap (on_server g d))).

(** A call on the filter is the call's effect on the keyspace. *)
Lemma step_served (g : GoredisBloom.t) (d : Lua.db) o :
  step sum256 (served g d) o = served g (server_step sum256 g d o).
Proof.
  destruct o as [data|data|data|].
  - reflexivity.
  - unfold step, server_step, Test, on_server. cbn.
    now destruct (Lua.testAll_loop _ _ _ _ _ =? 1).
  - unfold step, server_step, TestAndAdd, on_server. cbn.
    destruct (Lua.setAddAll_loop _ _ _ _ _ _) as [present d']. cbn.
    now destruct (present =? 1); destruct present.
  - reflexivity.
Qed.

Lemma run_served (g : GoredisBloom.t) ops :
  forall d, run sum256 ops (served g d) = served g (server_run sum256 g ops d).
Proof.
  induction ops as [|o ops IH]; intros d; [reflexivity|].
  unfold run, server_run in *. simpl. now rewrite step_served, IH.
Qed.

Lemma Test_served data (g : GoredisBloom.t) (d : Lua.db) :
  fst (Test sum256 data (served g d))
  = (Lua.testAll_loop (Z.to_nat (GoredisBloom.k g)) 0 (GoredisBloom.key g)
       (GoredisBloom.args g (baseHashes sum256 data)) d =? 1, None).
Proof.
  unfold Test, on_server. cbn.
  now destruct (Lua.testAll_loop _ _ _ _ _ =? 1).
Qed.

Lemma baseHashes_low32 data :
  baseHashes (sum256_low32 sum256) data
  = GoredisBloom.low32 (baseHashes sum256 data).
Proof.
  unfold baseHashes, sum256_low32.
  now destruct (sum256 data) as [[[a b'] c] e].
Qed.

Lemma forallb_ext_In {A : Type} (f f' : A -> bool) (xs : list A) :
  (forall x, In x xs -> f x = f' x) -> forallb f xs = forallb f' xs.
Proof.
  induction xs as [|x xs IH]; intros H; [reflexivity|].
  simpl. rewrite (H x) by now left. f_equal. apply IH. intros y Hy.
  apply H. now right.
Qed.

(** Both backends give the same answer on the same bits. *)
Lemma same_bits_Test (g : GoredisBloom.t) l d hq :
  same_bits g l d ->
  LocalBloom.TestAll_loop (Z.to_nat (LocalBloom.k l)) 0
    (GoredisBloom.low32 hq) l
  = (Lua.testAll_loop (Z.to_nat (GoredisBloom.k g)) 0 (GoredisBloom.key g)
       (GoredisBloom.args g hq) d =? 1).
Proof.
  intros (Hwf & Hk & Hm & Hk21 & Hbits).
  rewrite LocalBloomMore.TestAll_loop_forallb, LuaMore.testAll_loop_forallb.
  fold (LocalBloom.positions l (GoredisBloom.low32 hq)).
  change (map (fun t => Lua.loc (GoredisBloom.args g hq) (0 + Z.of_nat t))
            (seq 0 (Z.to_nat (GoredisBloom.k g))))
    with (GoredisBloom.positions g hq).
  rewrite (LuaFacts.positions_low32 g l hq Hwf Hk Hm Hk21).
  rewrite (forallb_ext_In (BitSet.Test (LocalBloom.b l))
             (d (GoredisBloom.key g))).
  - now destruct (forallb _ _).
  - intros p Hp. apply Hbits.
    unfold LocalBloom.positions in Hp. apply in_map_iff in Hp as (t & <- & _).
    now apply loc_valid.
Qed.

(** The same call keeps the bits the same. *)
Lemma same_bits_step (g : GoredisBloom.t) l d o :
  same_bits g l d ->
  same_bits g (local_step (sum256_low32 sum256) l o)
    (server_step sum256 g d o).
Proof.
  intros Hs. pose proof Hs as (Hwf & Hk & Hm & Hk21 & Hbits).
  assert (forall data,
             same_bits g (local_step (sum256_low32 sum256) l (OpAdd data))
               (server_step sum256 g d (OpAdd data))) as Hadd.
  { intros data.
    pose proof (local_step_wf (sum256_low32 sum256) l (OpAdd data) Hwf) as Hwf'.
    destruct (local_step_shape (sum256_low32 sum256) l (OpAdd data) Hwf)
      as [Hlen _].
    split; [exact Hwf'|]. split; [now rewrite local_step_k|].
    split; [unfold LocalBloom.M, BitSet.Len in *; now rewrite Hlen|].
    split; [exact Hk21|].
    intros j Hj. unfold BitSet.valid in Hj. rewrite Hlen in Hj.
    apply eq_true_iff_eq. cbn [local_step server_step].
    rewrite SetAll_sets_positions by assumption.
    rewrite LuaFacts.setAll_sets_positions.
    rewrite baseHashes_low32.
    fold (GoredisBloom.positions g (baseHashes sum256 data)).
    rewrite (LuaFacts.positions_low32 g l _ Hwf Hk Hm Hk21).
    now rewrite Hbits. }
  destruct o as [data|data|data|].
  - apply Hadd.
  - exact Hs.
  - rewrite local_step_TestAndAdd by assumption.
    cbn [server_step]. rewrite LuaMore.setAddAll_keyspace.
    apply Hadd.
  - pose proof (local_step_wf (sum256_low32 sum256) l OpClearAll Hwf) as Hwf'.
    split; [exact Hwf'|]. split; [exact Hk|]. split; [exact Hm|].
    split; [exact Hk21|].
    intros j Hj. cbn [local_step server_step LocalBloom.ClearAll snd LocalBloom.b].
    now rewrite BitSetFacts.Test_ClearAll, LuaMore.del_key.
Qed.

End ServerFacts.

Section ServerHistoryFacts.

Variable sum256 : list Byte.byte -> Z * Z * Z * Z.

Lemma same_bits_run (g : GoredisBloom.t) ops :
  forall l d, same_bits g l d ->
    same_bits g (local_run (sum256_low32 sum256) ops l)
      (server_run sum256 g ops d).
Proof.
  induction ops as [|o ops IH]; intros l d Hs; [exact Hs|].
  unfold local_run, server_run in *. simpl. apply IH.
  now apply same_bits_step.
Qed.

Lemma same_bits_new m k rk client (d0 : Lua.db) :
  0 <= m <= 2 ^ 32 -> 0 <= k <= 2 ^ 21 ->
  (forall j, d0 rk j = false) ->
  same_bits (GoredisBloom.mk (Uint.max 1 k) (Uint.max 1 m) rk client)
    (LocalBloom.mk (Uint.max 1 k) (BitSet.New (Uint.max 1 m))) d0.
Proof.
  intros Hm Hk Hd0. split; [|split; [reflexivity|split; [reflexivity|split]]].
  - apply LocalBloomFacts.local_wf_New.
    + unfold BitSet.maxLen, BitSet.Cap, BitSet.wordSize. lia.
    + unfold is_uint64, modulus64. lia.
  - cbn [GoredisBloom.k]. unfold Uint.max. destruct (Z.ltb_spec k 1); lia.
  - intros j _. cbn [LocalBloom.b GoredisBloom.key].
    now rewrite BitSetFacts.Test_New, Hd0.
Qed.

Lemma TestAndAdd_served data (g : GoredisBloom.t) (d : Lua.db) :
  fst (TestAndAdd sum256 data (NewBloom (GoredisBloom.bitmap (on_server g d))))
  = fst (Test sum256 data (NewBloom (GoredisBloom.bitmap (on_server g d)))).
Proof.
  rewrite Test_served. unfold TestAndAdd, on_server. cbn.
  rewrite LuaMore.setAddAll_loop_split. cbn.
  destruct (LuaMore.testAll_loop_01 (GoredisBloom.key g)
              (GoredisBloom.args g (baseHashes sum256 data))
              (Z.to_nat (GoredisBloom.k g)) 0 d) as [E|E].
  - change (GoredisBloom.args
              (GoredisBloom.mk (GoredisBloom.k g) (GoredisBloom.m g)
                 (GoredisBloom.key g) (Some (server_client d)))
              (baseHashes sum256 data))
      with (GoredisBloom.args g (baseHashes sum256 data)).
    now rewrite E.
  - change (GoredisBloom.args
              (GoredisBloom.mk (GoredisBloom.k g) (GoredisBloom.m g)
                 (GoredisBloom.key g) (Some (server_client d)))
              (baseHashes sum256 data))
      with (GoredisBloom.args g (baseHashes sum256 data)).
    now rewrite E.
Qed.

Lemma TestAndAdd_local data (l : LocalBloom.t) :
  LocalBloom.wf l ->
  fst (TestAndAdd sum256 data (NewBloom (LocalBloom.bitmap l)))
  = fst (Test sum256 data (NewBloom (LocalBloom.bitmap l))).
Proof.
  intros Hwf. unfold TestAndAdd, Test. cbn. unfold LocalBloom.TestAddAll.
  now rewrite LocalBloomFacts.TestAddAll_loop_split.
Qed.

(** On the server a call other than [ClearAll] only adds bits. *)
Lemma server_step_mono (g : GoredisBloom.t) (d : Lua.db) o j :
  is_clear o = false ->
  d (GoredisBloom.key g) j = true ->
  server_step sum256 g d o (GoredisBloom.key g) j = true.
Proof.
  intros Hc Hj. destruct o as [data|data|data|]; try discriminate.
  - cbn [server_step]. apply LuaFacts.setAll_sets_positions. now left.
  - exact Hj.
  - cbn [server_step]. rewrite LuaMore.setAddAll_keyspace.
    apply LuaFacts.setAll_sets_positions. now left.
Qed.

Lemma server_run_mono (g : GoredisBloom.t) ops j :
  existsb is_clear ops = false ->
  forall d, d (GoredisBloom.key g) j = true ->
            server_run sum256 g ops d (GoredisBloom.key g) j = true.
Proof.
  induction ops as [|o ops IH]; intros Hc d Hj; [exact Hj|].
  simpl in Hc. apply orb_false_iff in Hc as [Ho Hops].
  unfold server_run in *. simpl. apply IH; [assumption|].
  now apply server_step_mono.
Qed.

(** After an insertion every position of the key is on. *)
Lemma server_step_inserts (g : GoredisBloom.t) (d : Lua.db) o data j :
  inserts data o ->
  In j (GoredisBloom.positions g (baseHashes sum256 data)) ->
  server_step sum256 g d o (GoredisBloom.key g) j = true.
Proof.
  intros [-> | ->] Hj; cbn [server_step].
  - apply LuaFacts.setAll_sets_positions. now right.
  - rewrite LuaMore.setAddAll_keyspace.
    apply LuaFacts.setAll_sets_positions. now right.
Qed.

End ServerHistoryFacts.

(** X12. A go-redis filter on a reachable server, started on an unused
    key, answers every history of calls exactly as the in-process filter
    with the same [m <= 2^32] and [k <= 2^21] answers it on the hashes cut
    to their low 32 bits. *)
Theorem goredis_on_server_matches_local
    (sum256 : list Byte.byte -> Z * Z * Z * Z) (m k : Z) (rk : string)
    (d0 : Lua.db) (ops : list op) (key : list Byte.byte) :
  0 <= m <= 2 ^ 32 -> 0 <= k <= 2 ^ 21 ->
  (forall j, d0 rk j = false) ->
  let remote := run sum256 ops (NewGoredis m k rk (Some (server_client d0))) in
  let local := run (sum256_low32 sum256) ops (NewLocal m k) in
  fst (Test sum256 key remote) = fst (Test (sum256_low32 sum256) key local) /\
  fst (TestAndAdd sum256 key remote)
  = fst (TestAndAdd (sum256_low32 sum256) key local).
Proof.
  intros Hm Hk Hd0 remote local.
  set (g := GoredisBloom.mk (Uint.max 1 k) (Uint.max 1 m) rk
              (Some (server_client d0))).
  set (l0 := LocalBloom.mk (Uint.max 1 k) (BitSet.New (Uint.max 1 m))).
  pose proof (same_bits_new m k rk (Some (server_client d0)) d0 Hm Hk Hd0)
    as Hs0. fold g l0 in Hs0.
  pose proof (same_bits_run sum256 g ops l0 d0 Hs0) as Hs.
  assert (remote = NewBloom (GoredisBloom.bitmap
                               (on_server g (server_run sum256 g ops d0))))
    as ->.
  { subst remote. change (NewGoredis m k rk (Some (server_client d0)))
      with (NewBloom (GoredisBloom.bitmap (on_server g d0))).
    apply run_served. }
  assert (local = NewBloom (LocalBloom.bitmap
                              (local_run (sum256_low32 sum256) ops l0))) as ->.
  { subst local. apply run_local. }
  assert (fst (Test sum256 key
                 (NewBloom (GoredisBloom.bitmap
                              (on_server g (server_run sum256 g ops d0)))))
          = fst (Test (sum256_low32 sum256) key
                   (NewBloom (LocalBloom.bitmap
                                (local_run (sum256_low32 sum256) ops l0)))))
    as Htest.
  { rewrite Test_served, Test_local, baseHashes_low32. f_equal.
    symmetry. now apply same_bits_Test. }
  split; [exact Htest|].
  rewrite TestAndAdd_served, TestAndAdd_local; [exact Htest|].
  apply Hs.
Qed.

Lemma goredis_on_server_matches_local_witness :
  let sum256 := fun data : list Byte.byte =>
                  (4294967296 + Z.of_nat (List.length data), 7, 11, 13) in
  let ops := [OpAdd [Byte.x4a]; OpTestAndAdd [Byte.x42; Byte.x65]] in
  let key := [Byte.x42; Byte.x65] in
  let remote := run sum256 ops
                  (NewGoredis 1000 4 "test:123"
                     (Some (server_client (fun _ _ => false)))) in
  let local := run (sum256_low32 sum256) ops (NewLocal 1000 4) in
  fst (Test sum256 key remote) = fst (Test (sum256_low32 sum256) key local) /\
  fst (TestAndAdd sum256 key remote)
  = fst (TestAndAdd (sum256_low32 sum256) key local).
Proof.
  intros sum256 ops key.
  apply (goredis_on_server_matches_local sum256 1000 4 "test:123"
           (fun _ _ => false) ops key).
  - lia.
  - lia.
  - reflexivity.
Defined.

(** X13. No false negatives on the go-redis backend: on a reachable
    server, whatever the key held before, once a key has been passed to
    [Add] or [TestAndAdd] and no [ClearAll] follows, [Test] of that key
    returns [true] and no error ([m <= 2^32], [k <= 2^21]). *)
Theorem goredis_no_false_negatives
    (sum256 : list Byte.byte -> Z * Z * Z * Z) (m k : Z) (rk : string)
    (d0 : Lua.db) (before after : list op) (o : op) (key : list Byte.byte) :
  0 <= m <= 2 ^ 32 -> 0 <= k <= 2 ^ 21 ->
  inserts key o -> existsb is_clear after = false ->
  fst (Test sum256 key
         (run sum256 (before ++ o :: after)
            (NewGoredis m k rk (Some (server_client d0)))))
  = (true, None).
Proof.
  intros Hm Hk Hins Hclear.
  set (g := GoredisBloom.mk (Uint.max 1 k) (Uint.max 1 m) rk
              (Some (server_client d0))).
  change (NewGoredis m k rk (Some (server_client d0)))
    with (NewBloom (GoredisBloom.bitmap (on_server g d0))).
  rewrite run_served, Test_served. f_equal.
  rewrite LuaMore.testAll_loop_forallb.
  assert (forallb
            (server_run sum256 g (before ++ o :: after) d0 (GoredisBloom.key g))
            (map (fun t => Lua.loc (GoredisBloom.args g (baseHashes sum256 key))
                             (0 + Z.of_nat t))
               (seq 0 (Z.to_nat (GoredisBloom.k g)))) = true) as ->;
    [|reflexivity].
  apply forallb_forall. intros j Hj.
  unfold server_run. rewrite fold_left_app. cbn [fold_left].
  apply server_run_mono; [assumption|].
  apply (server_step_inserts sum256 g _ o key j Hins). exact Hj.
Qed.

Lemma goredis_no_false_negatives_witness :
  let sum256 := fun data : list Byte.byte =>
                  (4294967296 + Z.of_nat (List.length data), 7, 11, 13) in
  let key := [Byte.x42; Byte.x65] in
  fst (Test sum256 key
         (run sum256 ([OpClearAll] ++ OpTestAndAdd key :: [OpAdd [Byte.x4a]])
            (NewGoredis 1000 4 "test:123"
               (Some (server_client (fun _ _ => true))))))
  = (true, None).
Proof.
  intros sum256 key.
  apply (goredis_no_false_negatives sum256 1000 4 "test:123").
  - lia.
  - lia.
  - right. reflexivity.
  - reflexivity.
Defined.

(** X14. A go-redis filter without a client never recovers and never
    changes: after any history of calls it is the filter that was
    constructed, with [K() = max(1,k)] and [Cap() = max(1,m)], so every
    later call fails in the same way. *)
Theorem nil_client_history (sum256 : list Byte.byte -> Z * Z * Z * Z)
    (m k : Z) (key : string) (ops : list op) (data : list Byte.byte) :
  let f := NewGoredis m k key None in
  run sum256 ops f = f /\
  K (run sum256 ops f) = Uint.max 1 k /\
  Cap (run sum256 ops f) = Uint.max 1 m /\
  fst (Test sum256 data (run sum256 ops f)) = (false, Some ErrNoRedis) /\
  fst (Add sum256 data (run sum256 ops f)) = Some ErrNoRedis.
Proof.
  intros f.
  assert (run sum256 ops f = f) as Hrun.
  { unfold run. induction ops as [|o ops IH]; [reflexivity|].
    simpl. destruct o; exact IH. }
  rewrite Hrun. repeat split.
Qed.

(** ** The local cache *)

Module LocalCacheFacts.

Import Cache LocalCache.

Lemma int64_small z : - 2 ^ 63 <= z < 2 ^ 63 -> int64 z = z.
Proof.
  intros H. unfold int64. rewrite Z.mod_small by lia. lia.
Qed.

Lemma Intn_Some n seed :
  0 < n -> exists r, Intn n seed = Some r /\ 0 <= r < n.
Proof.
  intros Hn. unfold Intn. destruct (Z.leb_spec n 0); [lia|].
  exists (seed mod n). split; [reflexivity|]. now apply Z.mod_pos_bound.
Qed.

Lemma Intn_None n seed : n <= 0 -> Intn n seed = None.
Proof. intros Hn. unfold Intn. destruct (Z.leb_spec n 0); [reflexivity | lia]. Qed.

Lemma set_expiry_drawable now seed sec :
  drawable sec <-> exists exp, set_expiry now seed sec = Some exp.
Proof.
  unfold drawable, set_expiry. destruct (Z.eqb_spec sec 0) as [->|Hne].
  - split; [eauto | now left].
  - split.
    + intros [?|Hpos]; [contradiction|].
      destruct (Intn_Some _ seed Hpos) as (r & -> & _). eauto.
    + intros [exp H]. right.
      destruct (Z.leb_spec (int64 (Z.quot sec 10 + 1)) 0) as [Hle|]; [|assumption].
      now rewrite (Intn_None _ seed Hle) in H.
Qed.

Lemma get_expiry_drawable now seed sec :
  sec <> 0 -> drawable sec -> exists exp, get_expiry now seed sec = Some exp.
Proof.
  intros Hne [?|Hpos]; [contradiction|]. unfold get_expiry.
  destruct (Intn_Some _ seed Hpos) as (r & -> & _). eauto.
Qed.

(** For an [int] the draw panics exactly from [-10] downwards. *)
Lemma drawable_int sec :
  - 2 ^ 63 <= sec < 2 ^ 63 -> (drawable sec <-> -10 < sec).
Proof.
  intros Hr. unfold drawable.
  assert (- 2 ^ 63 <= Z.quot sec 10 + 1 < 2 ^ 63) as Hq
    by (Z.quot_rem_to_equations; lia).
  rewrite (int64_small _ Hq).
  Z.quot_rem_to_equations. lia.
Qed.

Lemma healthy_insert (c : t) key data :
  healthy c -> drawable (cacheItem.expireSec data) ->
  healthy (with_cache c (<[key := Item data]> (cache c))).
Proof.
  intros Hc Hd k s. cbn [with_cache cache].
  destruct (decide (key = k)) as [->|Hne].
  - rewrite lookup_insert_eq. intros [= <-]. eauto.
  - rewrite lookup_insert_ne by assumption. exact (Hc k s).
Qed.

Lemma healthy_New opts : healthy (NewLocalCache opts).
Proof.
  unfold NewLocalCache.
  assert (forall c, cache c = ∅ -> cache (fold_left apply_option opts c) = ∅) as H.
  { induction opts as [|o opts IH]; intros c Hc; [exact Hc|].
    simpl. apply IH. now destruct o. }
  intros k s Hk. rewrite H in Hk by reflexivity.
  now rewrite lookup_empty in Hk.
Qed.

Lemma healthy_step (c c' : t) x :
  healthy c -> step c x = Some c' -> healthy c'.
Proof.
  intros Hc. destruct x as [now seed key v|now seed key v sec|now seed key|key|now_at];
    cbn [step].
  - unfold Set', SetWithExpire.
    destruct (set_expiry now seed (expireSec c)) as [exp|] eqn:E; [|discriminate].
    intros [= <-]. apply healthy_insert; [assumption|].
    apply (set_expiry_drawable now seed). eauto.
  - unfold SetWithExpire.
    destruct (set_expiry now seed sec) as [exp|] eqn:E; [|discriminate].
    intros [= <-]. apply healthy_insert; [assumption|].
    apply (set_expiry_drawable now seed). eauto.
  - unfold Get. destruct (cache c !! key) as [[data|]|] eqn:E.
    + destruct (Hc _ _ E) as (data' & [= <-] & Hd).
      destruct (cacheItem.expireSec data =? 0); [now intros [= <-]|].
      destruct (get_expiry now seed (cacheItem.expireSec data)); [|discriminate].
      intros [= <-]. now apply healthy_insert.
    + now intros [= <-].
    + now intros [= <-].
  - intros [= <-] k s. cbn [Del snd with_cache cache].
    intros Hk. apply lookup_delete_Some in Hk as [_ Hk]. exact (Hc k s Hk).
  - intros [= <-] k s. cbn [sweep snd with_cache cache].
    intros Hk. apply map_lookup_filter_Some in Hk as [Hk _]. exact (Hc k s Hk).
Qed.

Lemma healthy_run xs :
  forall c c', healthy c -> run xs c = Some c' -> healthy c'.
Proof.
  induction xs as [|x xs IH]; intros c c' Hc; cbn [run].
  - now intros [= <-].
  - destruct (step c x) as [c1|] eqn:E; [|discriminate].
    apply IH. now apply (healthy_step c c1 x).
Qed.

(** On a healthy cache [Get] neither panics nor fails. *)
Lemma Get_healthy now seed key (c : t) :
  healthy c ->
  exists v c', Get now seed key c = Some (v, None, c') /\ healthy c'.
Proof.
  intros Hc. unfold Get. destruct (cache c !! key) as [s|] eqn:E.
  - destruct (Hc _ _ E) as (data & -> & Hd).
    destruct (Z.eqb_spec (cacheItem.expireSec data) 0) as [Hz|Hnz]; [eauto|].
    destruct (get_expiry_drawable now seed _ Hnz Hd) as [exp ->].
    do 2 eexists. split; [reflexivity|]. now apply healthy_insert.
  - eauto.
Qed.

End LocalCacheFacts.

Module LocalCacheMore.

Import Cache LocalCache LocalCacheFacts.

(** Storing under [key] and reading [key] back. *)
Lemma Get_after_insert now seed key data (c : t) :
  drawable (cacheItem.expireSec data) ->
  exists c', Get now seed key (with_cache c (<[key := Item data]> (cache c)))
             = Some (cacheItem.value data, None, c').
Proof.
  intros Hd. unfold Get. cbn [with_cache cache]. rewrite lookup_insert_eq.
  destruct (Z.eqb_spec (cacheItem.expireSec data) 0) as [Hz|Hnz]; [eauto|].
  destruct (get_expiry_drawable now seed _ Hnz Hd) as [exp ->]. eauto.
Qed.

Lemma SetWithExpire_Get now seed key v sec now' seed' (c : t) :
  drawable sec ->
  exists c1 c2,
    SetWithExpire now seed key v sec c = Some (None, c1) /\
    Get now' seed' key c1 = Some (v, None, c2) /\
    forall k', k' <> key -> cache c1 !! k' = cache c !! k'.
Proof.
  intros Hd. unfold SetWithExpire.
  destruct (proj1 (set_expiry_drawable now seed sec) Hd) as [exp ->].
  destruct (Get_after_insert now' seed' key (cacheItem.mk sec exp v) c Hd)
    as [c2 Hget].
  do 2 eexists. split; [reflexivity|]. split; [exact Hget|].
  intros k' Hne. cbn [with_cache cache]. now apply lookup_insert_ne.
Qed.

(** What a sweep leaves and what it reports. *)
Lemma sweep_lookup now_at (c : t) k data :
  cache (snd (sweep now_at c)) !! k = Some (Item data) <->
  cache c !! k = Some (Item data) /\ expired now_at k data = false.
Proof.
  cbn [sweep snd with_cache cache]. rewrite map_lookup_filter_Some.
  cbn [fst snd kept]. now rewrite negb_true_iff.
Qed.

Lemma sweep_no_foreign now_at (c : t) k :
  cache (snd (sweep now_at c)) !! k <> Some Foreign.
Proof.
  cbn [sweep snd with_cache cache]. rewrite map_lookup_filter_Some.
  cbn [fst snd kept]. intros [_ H]. discriminate.
Qed.

Lemma sweep_reports now_at (c : t) k v :
  (k, v) ∈ fst (sweep now_at c) <->
  expireFn c = true /\
  exists data, cache c !! k = Some (Item data) /\
               expired now_at k data = true /\ v = cacheItem.value data.
Proof.
  cbn [sweep fst]. destruct (expireFn c).
  - rewrite list_elem_of_omap. split.
    + intros ([k' s] & Hin & Hf). apply elem_of_map_to_list in Hin.
      cbn [fst snd] in Hf. destruct s as [data|]; [|discriminate].
      destruct (expired now_at k' data) eqn:E; [|discriminate].
      injection Hf as <- <-. split; [reflexivity|]. eauto.
    + intros (_ & data & Hk & He & ->). exists (k, Item data).
      split; [now apply elem_of_map_to_list|]. cbn [fst snd]. now rewrite He.
  - split; [intros H; now apply elem_of_nil in H | intros [H _]; discriminate].
Qed.

(** The expiry [Set] writes lies between [sec] and [sec + sec/10] seconds
    ahead. *)
Lemma set_expiry_bounds now seed sec :
  0 < sec < 2 ^ 32 ->
  exists exp, set_expiry now seed sec = Some exp /\
              now + sec * Second <= exp <= now + (sec + Z.quot sec 10) * Second.
Proof.
  intros Hs. unfold set_expiry. destruct (Z.eqb_spec sec 0); [lia|].
  assert (0 <= Z.quot sec 10 < 2 ^ 32) as Hq by (Z.quot_rem_to_equations; lia).
  rewrite int64_small by lia.
  destruct (Intn_Some (Z.quot sec 10 + 1) seed ltac:(lia)) as (r & -> & Hr).
  eexists. split; [reflexivity|].
  rewrite (int64_small (sec + r)) by lia. unfold Second.
  rewrite int64_small by lia. lia.
Qed.

(** The expiry [Get] writes back lies [sec] seconds ahead, plus at most
    [sec/10] nanoseconds. *)
Lemma get_expiry_bounds now seed sec :
  0 < sec < 2 ^ 32 ->
  exists exp, get_expiry now seed sec = Some exp /\
              now + sec * Second <= exp <= now + sec * Second + Z.quot sec 10.
Proof.
  intros Hs. unfold get_expiry.
  assert (0 <= Z.quot sec 10 < 2 ^ 32) as Hq by (Z.quot_rem_to_equations; lia).
  rewrite int64_small by lia.
  destruct (Intn_Some (Z.quot sec 10 + 1) seed ltac:(lia)) as (r & -> & Hr).
  eexists. split; [reflexivity|]. unfold Second.
  rewrite (int64_small (sec * 1000000000)) by lia.
  rewrite int64_small by lia. lia.
Qed.

End LocalCacheMore.

Module LocalCacheReads.

Import Cache LocalCache LocalCacheFacts.

Lemma Get_item now seed key data (c : t) :
  cache c !! key = Some (Item data) -> drawable (cacheItem.expireSec data) ->
  exists c', Get now seed key c = Some (cacheItem.value data, None, c').
Proof.
  intros Hk Hd. unfold Get. rewrite Hk.
  destruct (Z.eqb_spec (cacheItem.expireSec data) 0) as [Hz|Hnz]; [eauto|].
  destruct (get_expiry_drawable now seed _ Hnz Hd) as [exp ->]. eauto.
Qed.

Lemma Get_missing now seed key (c : t) :
  cache c !! key = None -> Get now seed key c = Some (VNil, None, c).
Proof. intros Hk. unfold Get. now rewrite Hk. Qed.

Lemma sweep_removes now_at (c : t) k data :
  cache c !! k = Some (Item data) -> expired now_at k data = true ->
  cache (snd (sweep now_at c)) !! k = None.
Proof.
  intros Hk He. cbn [sweep snd with_cache cache].
  apply map_lookup_filter_None. right. intros s Hs.
  rewrite Hk in Hs. injection Hs as <-. cbn [fst snd kept]. now rewrite He.
Qed.

Lemma drawable_pos sec : 0 < sec < 2 ^ 32 -> drawable sec.
Proof. intros Hs. apply drawable_int; lia. Qed.

End LocalCacheReads.

(** X15. Round trip of the local cache: for an expiry of more than [-10]
    seconds, [SetWithExpire] (and [Set], which is [SetWithExpire] with the
    cache's own expiry) succeeds without error, a later [Get] of the key
    returns the stored value without error, and no other key is
    touched. *)
Theorem local_cache_set_then_get (c : LocalCache.t) (now seed now' seed' : Z)
    (key : string) (v : Cache.value) (sec : Z) :
  - 2 ^ 63 <= sec < 2 ^ 63 -> -10 < sec ->
  LocalCache.Set' now seed key v (LocalCache.mk sec (LocalCache.cache c)
                                    (LocalCache.expireFn c))
  = LocalCache.SetWithExpire now seed key v sec
      (LocalCache.mk sec (LocalCache.cache c) (LocalCache.expireFn c)) /\
  exists c1 c2,
    LocalCache.SetWithExpire now seed key v sec c = Some (None, c1) /\
    LocalCache.Get now' seed' key c1 = Some (v, None, c2) /\
    forall k', k' <> key ->
               LocalCache.cache c1 !! k' = LocalCache.cache c !! k'.
Proof.
  intros Hr Hs. split; [reflexivity|].
  apply LocalCacheMore.SetWithExpire_Get.
  now apply LocalCacheFacts.drawable_int.
Qed.

Lemma local_cache_set_then_get_witness :
  let c := LocalCache.NewLocalCache [LocalCache.LocalWithExpire 10] in
  LocalCache.Set' 1700000000000000000 42 "test:123" (Cache.VInt 3)
    (LocalCache.mk 10 (LocalCache.cache c) (LocalCache.expireFn c))
  = LocalCache.SetWithExpire 1700000000000000000 42 "test:123" (Cache.VInt 3) 10
      (LocalCache.mk 10 (LocalCache.cache c) (LocalCache.expireFn c)) /\
  exists c1 c2,
    LocalCache.SetWithExpire 1700000000000000000 42 "test:123" (Cache.VInt 3)
      10 c = Some (None, c1) /\
    LocalCache.Get 1700000005000000000 7 "test:123" c1
    = Some (Cache.VInt 3, None, c2) /\
    forall k', k' <> "test:123"%string ->
               LocalCache.cache c1 !! k' = LocalCache.cache c !! k'.
Proof.
  intros c.
  apply (local_cache_set_then_get c 1700000000000000000 42
           1700000005000000000 7 "test:123" (Cache.VInt 3) 10); lia.
Defined.

(** X16. An expiry of [-10] seconds or less makes [Set] and
    [SetWithExpire] panic ([rand.Intn] is called with a bound that is not
    positive): a cache built with [LocalWithExpire(sec)], [sec <= -10],
    stores nothing. *)
Theorem local_cache_negative_expiry_panics (c : LocalCache.t) (now seed : Z)
    (key : string) (v : Cache.value) (sec : Z) :
  - 2 ^ 63 <= sec < 2 ^ 63 -> sec <= -10 ->
  LocalCache.SetWithExpire now seed key v sec c = None /\
  LocalCache.Set' now seed key v
    (LocalCache.NewLocalCache [LocalCache.LocalWithExpire sec]) = None.
Proof.
  intros Hr Hs.
  assert (LocalCache.set_expiry now seed sec = None) as H.
  { destruct (LocalCache.set_expiry now seed sec) as [exp|] eqn:E; [|reflexivity].
    assert (LocalCache.drawable sec) as Hd
      by (apply (LocalCacheFacts.set_expiry_drawable now seed); eauto).
    apply LocalCacheFacts.drawable_int in Hd; [lia | assumption]. }
  unfold LocalCache.Set', LocalCache.SetWithExpire. cbn. now rewrite H.
Qed.

Lemma local_cache_negative_expiry_panics_witness :
  LocalCache.SetWithExpire 1700000000000000000 42 "k" (Cache.VBool true) (-10)
    (LocalCache.NewLocalCache []) = None /\
  LocalCache.Set' 1700000000000000000 42 "k" (Cache.VBool true)
    (LocalCache.NewLocalCache [LocalCache.LocalWithExpire (-10)]) = None.
Proof.
  apply (local_cache_negative_expiry_panics (LocalCache.NewLocalCache [])
           1700000000000000000 42 "k" (Cache.VBool true) (-10)); lia.
Defined.

(** X17. A missing key is an absent value, not an error: after [Del] (which
    never fails and touches no other key) [Get] and the five typed getters
    return their nil result with a nil error and leave the cache as it
    is. *)
Theorem local_cache_missing_key (c : LocalCache.t) (now seed : Z)
    (key : string) :
  let c' := snd (LocalCache.Del key c) in
  fst (LocalCache.Del key c) = None /\
  (forall k', k' <> key ->
              LocalCache.cache c' !! k' = LocalCache.cache c !! k') /\
  LocalCache.Get now seed key c' = Some (Cache.VNil, None, c') /\
  LocalCache.GetInt now seed key c' = Some (None, None, c') /\
  LocalCache.GetFloat now seed key c' = Some (None, None, c') /\
  LocalCache.GetString now seed key c' = Some (EmptyString, None, c') /\
  LocalCache.GetBytes now seed key c' = Some (None, None, c') /\
  LocalCache.GetBool now seed key c' = Some (None, None, c').
Proof.
  intros c'.
  assert (LocalCache.Get now seed key c' = Some (Cache.VNil, None, c')) as Hget.
  { apply LocalCacheReads.Get_missing. subst c'.
    cbn [LocalCache.Del snd LocalCache.with_cache LocalCache.cache].
    apply lookup_delete_eq. }
  split; [reflexivity|]. split.
  { intros k' Hne. subst c'.
    cbn [LocalCache.Del snd LocalCache.with_cache LocalCache.cache].
    now apply lookup_delete_ne. }
  split; [exact Hget|].
  unfold LocalCache.GetInt, LocalCache.GetFloat, LocalCache.GetString,
    LocalCache.GetBytes, LocalCache.GetBool.
  rewrite Hget. repeat split.
Qed.

(** X18. However a cache built by [NewLocalCache] is used, through [Set],
    [SetWithExpire], [Get], [Del] and timer sweeps, as long as no call
    panicked, [Get] neither panics nor fails: it never meets a slot that
    is not a [*cacheItem], so it never returns [ErrDataType]. *)
Theorem local_cache_get_never_fails (opts : list LocalCache.LocalOption)
    (xs : list LocalCache.call) (c : LocalCache.t) (now seed : Z)
    (key : string) :
  LocalCache.run xs (LocalCache.NewLocalCache opts) = Some c ->
  exists v c', LocalCache.Get now seed key c = Some (v, None, c').
Proof.
  intros Hrun.
  destruct (LocalCacheFacts.Get_healthy now seed key c) as (v & c' & H & _).
  - apply (LocalCacheFacts.healthy_run xs _ c (LocalCacheFacts.healthy_New opts)).
    exact Hrun.
  - eauto.
Qed.

Lemma local_cache_get_never_fails_witness :
  let xs := [LocalCache.CSet 100 5 "a" (Cache.VInt 3);
             LocalCache.CSetWithExpire 200 6 "b" (Cache.VString "x") 0;
             LocalCache.CGet 300 7 "a";
             LocalCache.CSweep (fun _ => 400);
             LocalCache.CDel "b"] in
  let c := LocalCache.mk 10
             (<["a"%string :=
                  LocalCache.Item (cacheItem.mk 10 10000000301 (Cache.VInt 3))]> ∅)
             false in
  exists v c', LocalCache.Get 500 8 "a" c = Some (v, None, c').
Proof.
  intros xs c.
  apply (local_cache_get_never_fails [LocalCache.LocalWithExpire 10] xs c).
  vm_compute. reflexivity.
Defined.

Lemma stored_then_read_Get {R : Type}
    (pick : Cache.value -> Cache.err -> R * Cache.err)
    (getter : Z -> Z -> string -> LocalCache.t
              -> option (R * Cache.err * LocalCache.t))
    now seed now' seed' key sec c v :
  (forall n s k c0,
      getter n s k c0
      = match LocalCache.Get n s k c0 with
        | None => None
        | Some (v0, e, c') => Some (pick v0 e, c')
        end) ->
  LocalCache.drawable sec ->
  stored_then_read getter now seed now' seed' key sec c v = Some (pick v None).
Proof.
  intros Hg Hd. unfold stored_then_read.
  destruct (LocalCacheMore.SetWithExpire_Get now seed key v sec now' seed' c Hd)
    as (c1 & c2 & -> & Hget & _).
  now rewrite Hg, Hget.
Qed.

(** X19. Typed round trips of the local cache: a value stored with an
    expiry above [-10] seconds is read back by the getter of its own
    type: an [int64] or [int] by [GetInt], a [float64] by [GetFloat], a
    string by [GetString] and, as its bytes, by [GetBytes], a byte slice
    by [GetBytes] and, as a string of the same bytes, by [GetString], a
    [bool] by [GetBool]. *)
Theorem local_cache_typed_round_trips (c : LocalCache.t)
    (now seed now' seed' : Z) (key : string) (sec : Z)
    (z : Z) (f : float) (s : string) (bs : list Byte.byte) (b : bool) :
  - 2 ^ 63 <= sec < 2 ^ 63 -> -10 < sec -> - 2 ^ 63 <= z < 2 ^ 63 ->
  let read {R} getter v :=
    @stored_then_read R getter now seed now' seed' key sec c v in
  read LocalCache.GetInt (Cache.VInt64 z) = Some (Some z, None) /\
  read LocalCache.GetInt (Cache.VInt z) = Some (Some z, None) /\
  read LocalCache.GetFloat (Cache.VFloat64 f) = Some (Some f, None) /\
  read LocalCache.GetString (Cache.VString s) = Some (s, None) /\
  read LocalCache.GetBytes (Cache.VString s)
  = Some (Some (list_byte_of_string s), None) /\
  read LocalCache.GetBytes (Cache.VBytes bs) = Some (Some bs, None) /\
  (exists s', read LocalCache.GetString (Cache.VBytes bs) = Some (s', None) /\
              list_byte_of_string s' = bs) /\
  read LocalCache.GetBool (Cache.VBool b) = Some (Some b, None).
Proof.
  intros Hr Hs Hz read.
  pose proof (proj2 (LocalCacheFacts.drawable_int sec Hr) Hs) as Hd.
  subst read. cbv beta.
  repeat split.
  - erewrite (stored_then_read_Get _ LocalCache.GetInt); [|reflexivity|exact Hd].
    cbv beta iota. now rewrite LocalCacheFacts.int64_small.
  - erewrite (stored_then_read_Get _ LocalCache.GetInt); [|reflexivity|exact Hd].
    cbv beta iota. now rewrite LocalCacheFacts.int64_small.
  - now erewrite (stored_then_read_Get _ LocalCache.GetFloat);
      [|reflexivity|exact Hd].
  - now erewrite (stored_then_read_Get _ LocalCache.GetString);
      [|reflexivity|exact Hd].
  - now erewrite (stored_then_read_Get _ LocalCache.GetBytes);
      [|reflexivity|exact Hd].
  - now erewrite (stored_then_read_Get _ LocalCache.GetBytes);
      [|reflexivity|exact Hd].
  - exists (string_of_list_byte bs). split.
    + now erewrite (stored_then_read_Get _ LocalCache.GetString);
        [|reflexivity|exact Hd].
    + apply list_byte_of_string_of_list_byte.
  - now erewrite (stored_then_read_Get _ LocalCache.GetBool);
      [|reflexivity|exact Hd].
Qed.

Lemma local_cache_typed_round_trips_witness :
  let c := LocalCache.NewLocalCache [LocalCache.LocalWithExpire 10] in
  let read {R} getter v :=
    @stored_then_read R getter 1000 3 2000 4 "test:123" 10 c v in
  read LocalCache.GetInt (Cache.VInt64 3) = Some (Some 3, None) /\
  read LocalCache.GetInt (Cache.VInt 3) = Some (Some 3, None) /\
  read LocalCache.GetFloat (Cache.VFloat64 3%float) = Some (Some 3%float, None) /\
  read LocalCache.GetString (Cache.VString "Love") = Some ("Love"%string, None) /\
  read LocalCache.GetBytes (Cache.VString "Love")
  = Some (Some (list_byte_of_string "Love"), None) /\
  read LocalCache.GetBytes (Cache.VBytes [Byte.x4c]) = Some (Some [Byte.x4c], None) /\
  (exists s', read LocalCache.GetString (Cache.VBytes [Byte.x4c]) = Some (s', None) /\
              list_byte_of_string s' = [Byte.x4c]) /\
  read LocalCache.GetBool (Cache.VBool true) = Some (Some true, None).
Proof.
  intros c.
  apply (local_cache_typed_round_trips c 1000 3 2000 4 "test:123" 10 3
           3%float "Love" [Byte.x4c] true); lia.
Defined.

(** X20. Where the typed getters of the local cache do not follow the
    stored number: [GetInt] rejects a [uint64] with [ErrDataType] and
    returns a [uint] of [2^63] or more as the negative [int64] with the
    same bits; [GetBool] accepts [int64] and floating-point values but
    answers [false] for every one of them, also for 1 (only the [int] 1 is
    [true]), and rejects the unsigned types. *)
Theorem local_cache_typed_edge_cases (c : LocalCache.t)
    (now seed now' seed' : Z) (key : string) (sec : Z) (z : Z) (f : float) :
  - 2 ^ 63 <= sec < 2 ^ 63 -> -10 < sec -> 2 ^ 63 <= z < 2 ^ 64 ->
  let read {R} getter v :=
    @stored_then_read R getter now seed now' seed' key sec c v in
  read LocalCache.GetInt (Cache.VUint64 z) = Some (None, Some Cache.ErrDataType) /\
  read LocalCache.GetInt (Cache.VUint z) = Some (Some (z - 2 ^ 64), None) /\
  (forall i, read LocalCache.GetBool (Cache.VInt64 i) = Some (Some false, None)) /\
  read LocalCache.GetBool (Cache.VFloat64 f) = Some (Some false, None) /\
  read LocalCache.GetBool (Cache.VFloat32 f) = Some (Some false, None) /\
  (forall i, read LocalCache.GetBool (Cache.VInt i) = Some (Some (i =? 1), None)) /\
  (forall i, read LocalCache.GetBool (Cache.VUint i)
             = Some (None, Some Cache.ErrDataType)).
Proof.
  intros Hr Hs Hz read.
  pose proof (proj2 (LocalCacheFacts.drawable_int sec Hr) Hs) as Hd.
  subst read. cbv beta.
  repeat split; intros;
    try (now erewrite (stored_then_read_Get _ LocalCache.GetBool);
         [|reflexivity|exact Hd]).
  - now erewrite (stored_then_read_Get _ LocalCache.GetInt);
      [|reflexivity|exact Hd].
  - erewrite (stored_then_read_Get _ LocalCache.GetInt); [|reflexivity|exact Hd].
    cbv beta iota. do 3 f_equal. unfold Cache.int64.
    replace (z + 2 ^ 63) with ((z - 2 ^ 63) + 1 * 2 ^ 64) by lia.
    rewrite Z.mod_add by lia. rewrite Z.mod_small by lia. lia.
Qed.

Lemma local_cache_typed_edge_cases_witness :
  let c := LocalCache.NewLocalCache [LocalCache.LocalWithExpire 10] in
  let read {R} getter v :=
    @stored_then_read R getter 1000 3 2000 4 "test:123" 10 c v in
  read LocalCache.GetInt (Cache.VUint64 18446744073709551615)
  = Some (None, Some Cache.ErrDataType) /\
  read LocalCache.GetInt (Cache.VUint 18446744073709551615)
  = Some (Some (18446744073709551615 - 2 ^ 64), None) /\
  (forall i, read LocalCache.GetBool (Cache.VInt64 i) = Some (Some false, None)) /\
  read LocalCache.GetBool (Cache.VFloat64 1%float) = Some (Some false, None) /\
  read LocalCache.GetBool (Cache.VFloat32 1%float) = Some (Some false, None) /\
  (forall i, read LocalCache.GetBool (Cache.VInt i) = Some (Some (i =? 1), None)) /\
  (forall i, read LocalCache.GetBool (Cache.VUint i)
             = Some (None, Some Cache.ErrDataType)).
Proof.
  intros c.
  apply (local_cache_typed_edge_cases c 1000 3 2000 4 "test:123" 10
           18446744073709551615 1%float); lia.
Defined.

(** X21. One sweep of the expiry timer keeps exactly the items whose
    expiry is the zero time or not yet past when the sweep looks at them,
    drops every slot that is not an item, and, when a callback is set,
    reports exactly the expired items it removed, each with its value. *)
Theorem local_cache_sweep (now_at : string -> Z) (c : LocalCache.t)
    (k : string) (data : cacheItem.t) (v : Cache.value) :
  let c' := snd (LocalCache.sweep now_at c) in
  (LocalCache.cache c' !! k = Some (LocalCache.Item data) <->
   LocalCache.cache c !! k = Some (LocalCache.Item data) /\
   (cacheItem.expireTime data = 0 \/ now_at k <= cacheItem.expireTime data)) /\
  LocalCache.cache c' !! k <> Some LocalCache.Foreign /\
  LocalCache.expireSec c' = LocalCache.expireSec c /\
  ((k, v) ∈ fst (LocalCache.sweep now_at c) <->
   LocalCache.expireFn c = true /\
   exists d, LocalCache.cache c !! k = Some (LocalCache.Item d) /\
             cacheItem.expireTime d <> 0 /\ cacheItem.expireTime d < now_at k /\
             v = cacheItem.value d).
Proof.
  intros c'.
  assert (forall d, LocalCache.expired now_at k d = true <->
                    cacheItem.expireTime d <> 0 /\ cacheItem.expireTime d < now_at k)
    as Hexp.
  { intros d. unfold LocalCache.expired.
    rewrite andb_true_iff, negb_true_iff, Z.eqb_neq, Z.ltb_lt. reflexivity. }
  split; [|split; [|split]].
  - subst c'. rewrite LocalCacheMore.sweep_lookup.
    assert (LocalCache.expired now_at k data = false <->
            cacheItem.expireTime data = 0 \/ now_at k <= cacheItem.expireTime data)
      as ->; [|reflexivity].
    rewrite <- not_true_iff_false, Hexp. lia.
  - apply LocalCacheMore.sweep_no_foreign.
  - reflexivity.
  - rewrite LocalCacheMore.sweep_reports. split.
    + intros (Hf & d & Hk & He & ->). apply Hexp in He as [? ?]. eauto 8.
    + intros (Hf & d & Hk & H1 & H2 & ->). split; [assumption|].
      exists d. rewrite Hexp. eauto.
Qed.

(** X22. An entry stored with an expiry of [sec > 0] seconds survives
    every sweep that looks at it no later than [sec] seconds after the
    store: [Get] still returns its value. *)
Theorem local_cache_entry_survives (c : LocalCache.t) (now seed now' seed' : Z)
    (key : string) (v : Cache.value) (sec : Z) (now_at : string -> Z) :
  0 < sec < 2 ^ 32 -> now_at key <= now + sec * Cache.Second ->
  exists c1 c2,
    LocalCache.SetWithExpire now seed key v sec c = Some (None, c1) /\
    LocalCache.Get now' seed' key (snd (LocalCache.sweep now_at c1))
    = Some (v, None, c2).
Proof.
  intros Hs Hearly. unfold LocalCache.SetWithExpire.
  destruct (LocalCacheMore.set_expiry_bounds now seed sec Hs) as (exp & -> & Hb).
  eexists. 
  destruct (LocalCacheReads.Get_item now' seed' key (cacheItem.mk sec exp v)
              (snd (LocalCache.sweep now_at
                      (LocalCache.with_cache c
                         (<[key := LocalCache.Item (cacheItem.mk sec exp v)]>
                            (LocalCache.cache c))))))
    as [c2 Hget].
  - apply LocalCacheMore.sweep_lookup. split.
    + cbn [LocalCache.with_cache LocalCache.cache]. apply lookup_insert_eq.
    + unfold LocalCache.expired. cbn [cacheItem.expireTime].
      apply andb_false_iff. right. apply Z.ltb_ge. lia.
  - now apply LocalCacheReads.drawable_pos.
  - exists c2. split; [reflexivity | exact Hget].
Qed.

Lemma local_cache_entry_survives_witness :
  exists c1 c2,
    LocalCache.SetWithExpire 1000 3 "test:123" (Cache.VBool true) 30
      (LocalCache.NewLocalCache [LocalCache.LocalWithExpire 5])
    = Some (None, c1) /\
    LocalCache.Get 16000000000 4 "test:123"
      (snd (LocalCache.sweep (fun _ => 15000000000) c1))
    = Some (Cache.VBool true, None, c2).
Proof.
  apply (local_cache_entry_survives
           (LocalCache.NewLocalCache [LocalCache.LocalWithExpire 5])
           1000 3 16000000000 4 "test:123" (Cache.VBool true) 30
           (fun _ => 15000000000)).
  - lia.
  - unfold Cache.Second. lia.
Defined.

(** X23. An entry stored at a time [now >= 0] with an expiry of [sec > 0]
    seconds and not read since is removed by the first sweep that looks at
    it more than [sec + sec/10] seconds after the store: [Get] then
    returns the absent value, and the sweep reports the entry exactly when
    a callback is set. *)
Theorem local_cache_entry_expires (c : LocalCache.t) (now seed now' seed' : Z)
    (key : string) (v : Cache.value) (sec : Z) (now_at : string -> Z) :
  0 < sec < 2 ^ 32 -> 0 <= now ->
  now + (sec + Z.quot sec 10) * Cache.Second < now_at key ->
  exists c1,
    LocalCache.SetWithExpire now seed key v sec c = Some (None, c1) /\
    LocalCache.Get now' seed' key (snd (LocalCache.sweep now_at c1))
    = Some (Cache.VNil, None, snd (LocalCache.sweep now_at c1)) /\
    ((key, v) ∈ fst (LocalCache.sweep now_at c1) <-> LocalCache.expireFn c = true).
Proof.
  intros Hs Hnow Hlate. unfold LocalCache.SetWithExpire.
  destruct (LocalCacheMore.set_expiry_bounds now seed sec Hs) as (exp & -> & Hb).
  eexists. split; [reflexivity|].
  set (c1 := LocalCache.with_cache c _).
  assert (LocalCache.cache c1 !! key
          = Some (LocalCache.Item (cacheItem.mk sec exp v))) as Hk.
  { subst c1. cbn [LocalCache.with_cache LocalCache.cache].
    apply lookup_insert_eq. }
  assert (LocalCache.expired now_at key (cacheItem.mk sec exp v) = true) as He.
  { unfold LocalCache.expired, Cache.Second in *. cbn [cacheItem.expireTime].
    apply andb_true_iff. split.
    - apply negb_true_iff, Z.eqb_neq. lia.
    - apply Z.ltb_lt. lia. }
  split.
  - apply LocalCacheReads.Get_missing.
    now apply (LocalCacheReads.sweep_removes now_at c1 key _ Hk).
  - rewrite LocalCacheMore.sweep_reports. split; [tauto|].
    intros Hf. split; [exact Hf|]. eauto.
Qed.

Lemma local_cache_entry_expires_witness :
  let c := LocalCache.NewLocalCache
             [LocalCache.LocalWithExpire 10; LocalCache.LocalExpireNotify] in
  exists c1,
    LocalCache.SetWithExpire 1000 3 "test:123" (Cache.VBool true) 10 c
    = Some (None, c1) /\
    LocalCache.Get 21000000000 4 "test:123"
      (snd (LocalCache.sweep (fun _ => 20000000000) c1))
    = Some (Cache.VNil, None, snd (LocalCache.sweep (fun _ => 20000000000) c1)) /\
    (("test:123"%string, Cache.VBool true)
       ∈ fst (LocalCache.sweep (fun _ => 20000000000) c1)
     <-> LocalCache.expireFn c = true).
Proof.
  intros c.
  apply (local_cache_entry_expires c 1000 3 21000000000 4 "test:123"
           (Cache.VBool true) 10 (fun _ => 20000000000)).
  - lia.
  - lia.
  - vm_compute. reflexivity.
Defined.

(** X24. Reading extends an entry's life, whatever is left of it: after a
    [Get] at time [t] of an item with an expiry of [sec > 0] seconds, also
    one whose expiry time has already passed but which no sweep has yet
    removed, the item survives every sweep that looks at it no later than
    [sec] seconds after [t]. *)
Theorem local_cache_get_extends_life (c : LocalCache.t) (t seed t' seed' : Z)
    (key : string) (data : cacheItem.t) (now_at : string -> Z) :
  LocalCache.cache c !! key = Some (LocalCache.Item data) ->
  0 < cacheItem.expireSec data < 2 ^ 32 ->
  now_at key <= t + cacheItem.expireSec data * Cache.Second ->
  exists c1 c2,
    LocalCache.Get t seed key c = Some (cacheItem.value data, None, c1) /\
    LocalCache.Get t' seed' key (snd (LocalCache.sweep now_at c1))
    = Some (cacheItem.value data, None, c2).
Proof.
  intros Hk Hs Hearly. unfold LocalCache.Get at 1. rewrite Hk.
  destruct (Z.eqb_spec (cacheItem.expireSec data) 0) as [|_]; [lia|].
  destruct (LocalCacheMore.get_expiry_bounds t seed _ Hs) as (exp & -> & Hb).
  eexists.
  set (data' := cacheItem.mk (cacheItem.expireSec data) exp (cacheItem.value data)).
  destruct (LocalCacheReads.Get_item t' seed' key data'
              (snd (LocalCache.sweep now_at
                      (LocalCache.with_cache c
                         (<[key := LocalCache.Item data']> (LocalCache.cache c))))))
    as [c2 Hget].
  - apply LocalCacheMore.sweep_lookup. split.
    + cbn [LocalCache.with_cache LocalCache.cache]. apply lookup_insert_eq.
    + unfold LocalCache.expired. subst data'. cbn [cacheItem.expireTime].
      apply andb_false_iff. right. apply Z.ltb_ge. lia.
  - subst data'. cbn [cacheItem.expireSec].
    now apply LocalCacheReads.drawable_pos.
  - exists c2. split; [reflexivity | exact Hget].
Qed.

Lemma local_cache_get_extends_life_witness :
  let data := cacheItem.mk 10 500 (Cache.VBool true) in
  let c := LocalCache.mk 10 (<["test:123"%string := LocalCache.Item data]> ∅)
             false in
  exists c1 c2,
    LocalCache.Get 7000000000 3 "test:123" c
    = Some (Cache.VBool true, None, c1) /\
    LocalCache.Get 15000000000 4 "test:123"
      (snd (LocalCache.sweep (fun _ => 14000000000) c1))
    = Some (Cache.VBool true, None, c2).
Proof.
  intros data c.
  apply (local_cache_get_extends_life c 7000000000 3 15000000000 4 "test:123"
           data (fun _ => 14000000000)).
  - reflexivity.
  - simpl. lia.
  - vm_compute. discriminate.
Defined.

(** X25. An entry stored with an expiry of 0 never expires: no sequence of
    sweeps, whenever they run, removes it. *)
Theorem local_cache_zero_never_expires (c : LocalCache.t)
    (now seed now' seed' : Z) (key : string) (v : Cache.value)
    (sweeps : list (string -> Z)) :
  exists c1 c2,
    LocalCache.SetWithExpire now seed key v 0 c = Some (None, c1) /\
    LocalCache.run (map LocalCache.CSweep sweeps) c1 = Some c2 /\
    LocalCache.Get now' seed' key c2 = Some (v, None, c2).
Proof.
  eexists. 
  set (c1 := LocalCache.with_cache c
               (<[key := LocalCache.Item (cacheItem.mk 0 0 v)]> (LocalCache.cache c))).
  assert (forall c0,
             LocalCache.cache c0 !! key = Some (LocalCache.Item (cacheItem.mk 0 0 v)) ->
             exists c2, LocalCache.run (map LocalCache.CSweep sweeps) c0 = Some c2 /\
                        LocalCache.cache c2 !! key
                        = Some (LocalCache.Item (cacheItem.mk 0 0 v))) as Hrun.
  { induction sweeps as [|now_at sweeps IH]; intros c0 Hk; [now exists c0|].
    cbn [map LocalCache.run LocalCache.step]. apply IH.
    apply LocalCacheMore.sweep_lookup. split; [exact Hk | reflexivity]. }
  destruct (Hrun c1) as (c2 & Hc2 & Hk2).
  { subst c1. cbn [LocalCache.with_cache LocalCache.cache]. apply lookup_insert_eq. }
  exists c2. split; [reflexivity|]. split; [exact Hc2|].
  unfold LocalCache.Get. now rewrite Hk2.
Qed.
